(** * full_viewer: the fish-eye panorama projection and rendering core

    A shallow embedding of [projection.ts], [types.ts], [labelRenderer.ts]
    and [renderer.ts].

    JavaScript numbers are modelled as real numbers with exact arithmetic:
    [Math.sqrt], [Math.tan], [Math.atan], [Math.asin], [Math.sin] and
    [Math.cos] are the functions of the same name of the Standard Library,
    so every statement below is about the finite, non-NaN behaviour of the
    code, with no rounding.  Integer-valued quantities (array indices, image
    and canvas dimensions, colour bytes) are integers.

    Two places where the real numbers and the doubles of the code part ways
    are kept out of the statements by explicit hypotheses:
    - a division by zero is [0] here, where the code gets [Infinity] or
      [NaN] (a zoom or a viewport dimension of zero in [projectToSource]);
      likewise the tangent at [PI / 2] is [0] here and a large finite
      number in the code;
    - the wrap loops of [normalizeAngle] always end over the reals, but
      over doubles an angle from about [1e16] on is not changed by
      subtracting [2 * Math.PI], and the loop never ends. *)

From Stdlib Require Import Reals Lra Lia ZArith List String Bool.
From stdpp Require Import base list.
Import ListNotations.

Open Scope R_scope.

(** ** Number comparisons as booleans *)

Definition ltb (a b : R) : bool := if Rlt_dec a b then true else false.
Definition gtb (a b : R) : bool := ltb b a.

(** ** The JavaScript [Math] object, over the reals *)

Module Math.

Definition sqrt (v : R) : R := R_sqrt.sqrt v.
Definition tan (v : R) : R := Rtrigo1.tan v.
Definition sin (v : R) : R := Rtrigo_def.sin v.
Definition cos (v : R) : R := Rtrigo_def.cos v.
Definition atan (v : R) : R := Ratan.atan v.
Definition asin (v : R) : R := Ratan.asin v.
Definition abs (v : R) : R := Rabs v.
Definition min (a b : R) : R := Rmin a b.
Definition max (a b : R) : R := Rmax a b.
Definition PI : R := Rtrigo1.PI.

(** [Math.atan2(y, x)]: the angle of the point [(x, y)], in [(-PI, PI]]. *)
Definition atan2 (y x : R) : R :=
  if Rlt_dec 0 x then Ratan.atan (y / x)
  else if Rlt_dec x 0 then
    (if Rle_dec 0 y then Ratan.atan (y / x) + Rtrigo1.PI
     else Ratan.atan (y / x) - Rtrigo1.PI)
  else if Rlt_dec 0 y then Rtrigo1.PI / 2
  else if Rlt_dec y 0 then - (Rtrigo1.PI / 2)
  else 0.

(** [Math.floor]: the greatest integer below or equal to the argument. *)
Definition floor (v : R) : Z := Int_part v.

(** [Math.min(...xs)] and [Math.max(...xs)] on a non-empty argument list
    [x0, ...rest]. *)
Definition minOf (x0 : R) (rest : list R) : R := fold_left Rmin rest x0.
Definition maxOf (x0 : R) (rest : list R) : R := fold_left Rmax rest x0.

End Math.

(** ** types.ts *)

Inductive ProjectionType : Type :=
| RECTILINEAR
| STEREOGRAPHIC
| EQUIDISTANT
| EQUISOLID.

Record ViewState : Type := mkViewState {
  yaw : R;
  pitch : R;
  zoom : R;
  isDragging : bool
}.

Record PanoramaLabel : Type := mkLabel {
  label_id : string;
  label_x : R;
  label_y : R;
  label_w : R;
  label_h : R;
  label_title : option string
}.

Module CONSTRAINTS.
Definition MIN_CANVAS_SIZE : Z := 100.
Definition MIN_IMAGE_WIDTH : Z := 512.
Definition MIN_IMAGE_HEIGHT : Z := 256.
Definition MAX_IMAGE_WIDTH : Z := 8192.
Definition MAX_IMAGE_HEIGHT : Z := 4096.
Definition DEFAULT_FOV : R := 90.
Definition DEFAULT_MIN_ZOOM : R := 0.5.
Definition DEFAULT_MAX_ZOOM : R := 3.0.
Definition MIN_PITCH : R := -90.
Definition MAX_PITCH : R := 90.
End CONSTRAINTS.

(** ** projection.ts *)

Record PixelCoord : Type := mkPixel { pixel_x : R; pixel_y : R }.
Record SampleCoord : Type := mkSample { sample_x : R; sample_y : R }.

(** The [ProjectionStrategy] interface.  The object literals
    [{theta, phi}], [{nx, ny}] and [{x, y}] it returns are pairs. *)
Record ProjectionStrategy : Type := mkStrategy {
  viewportToAngles : R -> R -> R -> R -> R * R;
  anglesToViewport : R -> R -> R -> R -> R * R;
  getDragVelocity : R -> R -> R -> R * R
}.

Module StereographicProjection.

Definition viewportToAngles (nx ny fov aspectRatio : R) : R * R :=
  let adjustedNx := nx * aspectRatio in
  let r := Math.sqrt (adjustedNx * adjustedNx + ny * ny) in
  if Rlt_dec r 0.0001 then (0, 0)
  else
    let maxAngle := fov / 2 in
    let angle := 2 * Math.atan (r / (2 * Math.tan (maxAngle / 2))) in
    let theta := angle * (adjustedNx / r) in
    let phi := angle * (ny / r) in
    (theta, phi).

Definition anglesToViewport (theta phi fov aspectRatio : R) : R * R :=
  let angle := Math.sqrt (theta * theta + phi * phi) in
  if Rlt_dec angle 0.0001 then (0, 0)
  else
    let maxAngle := fov / 2 in
    let r := 2 * Math.tan (angle / 2) * (2 * Math.tan (maxAngle / 2)) in
    let nx := r * (theta / angle) in
    let ny := r * (phi / angle) in
    let nx := nx / aspectRatio in
    (nx, ny).

Definition getDragVelocity (nx ny baseSensitivity : R) : R * R :=
  let r := Math.sqrt (nx * nx + ny * ny) in
  let falloff := Math.cos (r * Math.PI / 4) in
  (baseSensitivity * falloff, baseSensitivity * falloff).

Definition strategy : ProjectionStrategy :=
  mkStrategy viewportToAngles anglesToViewport getDragVelocity.

End StereographicProjection.

Module EquidistantProjection.

Definition viewportToAngles (nx ny fov aspectRatio : R) : R * R :=
  let adjustedNx := nx * aspectRatio in
  let r := Math.sqrt (adjustedNx * adjustedNx + ny * ny) in
  if Rlt_dec r 0.0001 then (0, 0)
  else
    let maxRadius := Math.sqrt (aspectRatio * aspectRatio + 1) in
    let angle := r * (fov / 2) / maxRadius in
    let theta := angle * (adjustedNx / r) in
    let phi := angle * (ny / r) in
    (theta, phi).

Definition anglesToViewport (theta phi fov aspectRatio : R) : R * R :=
  let angle := Math.sqrt (theta * theta + phi * phi) in
  if Rlt_dec angle 0.0001 then (0, 0)
  else
    let maxRadius := Math.sqrt (aspectRatio * aspectRatio + 1) in
    let r := angle * maxRadius / (fov / 2) in
    let nx := r * (theta / angle) in
    let ny := r * (phi / angle) in
    let nx := nx / aspectRatio in
    (nx, ny).

Definition getDragVelocity (nx ny baseSensitivity : R) : R * R :=
  let r := Math.sqrt (nx * nx + ny * ny) in
  let falloff := 1 - r * 0.15 in
  (baseSensitivity * Math.max 0.5 falloff,
   baseSensitivity * Math.max 0.5 falloff).

Definition strategy : ProjectionStrategy :=
  mkStrategy viewportToAngles anglesToViewport getDragVelocity.

End EquidistantProjection.

Module EquisolidProjection.

Definition viewportToAngles (nx ny _fov aspectRatio : R) : R * R :=
  let adjustedNx := nx * aspectRatio in
  let r := Math.sqrt (adjustedNx * adjustedNx + ny * ny) in
  if Rlt_dec r 0.0001 then (0, 0)
  else
    let angle := 2 * Math.asin (Math.min (r / 2) 1) in
    let theta := angle * (adjustedNx / r) in
    let phi := angle * (ny / r) in
    (theta, phi).

Definition anglesToViewport (theta phi _fov aspectRatio : R) : R * R :=
  let angle := Math.sqrt (theta * theta + phi * phi) in
  if Rlt_dec angle 0.0001 then (0, 0)
  else
    let r := 2 * Math.sin (angle / 2) in
    let nx := r * (theta / angle) in
    let ny := r * (phi / angle) in
    let nx := nx / aspectRatio in
    (nx, ny).

Definition getDragVelocity (nx ny baseSensitivity : R) : R * R :=
  let r := Math.sqrt (nx * nx + ny * ny) in
  let falloff := 1 - r * 0.2 in
  (baseSensitivity * Math.max 0.6 falloff,
   baseSensitivity * Math.max 0.6 falloff).

Definition strategy : ProjectionStrategy :=
  mkStrategy viewportToAngles anglesToViewport getDragVelocity.

End EquisolidProjection.

Module RectilinearProjection.

Definition viewportToAngles (nx ny fov aspectRatio : R) : R * R :=
  let theta := Math.atan2 (nx * aspectRatio * Math.tan (fov / 2)) 1 in
  let phi := Math.atan (ny * Math.tan (fov / 2)) in
  (theta, phi).

Definition anglesToViewport (theta phi fov aspectRatio : R) : R * R :=
  let nx := Math.tan theta / (aspectRatio * Math.tan (fov / 2)) in
  let ny := Math.tan phi / Math.tan (fov / 2) in
  (nx, ny).

Definition getDragVelocity (_nx _ny baseSensitivity : R) : R * R :=
  (baseSensitivity, baseSensitivity).

Definition strategy : ProjectionStrategy :=
  mkStrategy viewportToAngles anglesToViewport getDragVelocity.

End RectilinearProjection.

(** The strategy registry, a partial record keyed by projection type. *)
Definition projectionStrategies (type : ProjectionType)
  : option ProjectionStrategy :=
  match type with
  | RECTILINEAR => Some RectilinearProjection.strategy
  | STEREOGRAPHIC => Some StereographicProjection.strategy
  | EQUIDISTANT => Some EquidistantProjection.strategy
  | EQUISOLID => Some EquisolidProjection.strategy
  end.

Definition getProjectionStrategy (type : ProjectionType)
  : ProjectionStrategy :=
  match projectionStrategies type with
  | Some s => s
  | None => StereographicProjection.strategy
  end.

(** [while (angle > Math.PI) angle -= 2 * Math.PI], run for at most
    [fuel] tests of the loop condition. *)
Fixpoint subtractTurns (fuel : nat) (angle : R) : option R :=
  match fuel with
  | O => None
  | S fuel' =>
      if Rlt_dec Math.PI angle then subtractTurns fuel' (angle - 2 * Math.PI)
      else Some angle
  end.

(** [while (angle < -Math.PI) angle += 2 * Math.PI]. *)
Fixpoint addTurns (fuel : nat) (angle : R) : option R :=
  match fuel with
  | O => None
  | S fuel' =>
      if Rlt_dec angle (- Math.PI) then addTurns fuel' (angle + 2 * Math.PI)
      else Some angle
  end.

Definition normalizeAngleFuel (fuel : nat) (angle : R) : option R :=
  match subtractTurns fuel angle with
  | Some angle' => addTurns fuel angle'
  | None => None
  end.

(** A number of loop tests that is enough for either loop on [angle]. *)
Definition turnsBound (angle : R) : nat :=
  S (Z.to_nat (up (Rabs angle / (2 * Math.PI)))).

(** [normalizeAngle], run with enough tests for the loops to end.  Over
    the reals that number always exists; the code's loops over doubles end
    only while a subtraction of [2 * Math.PI] still changes the angle,
    which fails from about [1e16] on. *)
Definition normalizeAngle (angle : R) : R :=
  match normalizeAngleFuel (turnsBound angle) angle with
  | Some angle' => angle'
  | None => angle
  end.

Definition clamp (value min max : R) : R :=
  Math.max min (Math.min max value).

Definition degToRad (degrees : R) : R := degrees * (Math.PI / 180).

Definition radToDeg (radians : R) : R := radians * (180 / Math.PI).

(** [projectToSource].  The divisions by [width], [height] and [zoom]
    are those of the code for non-zero divisors only: at zero the code
    computes with [Infinity] and [NaN]. *)
Definition projectToSource
  (x y width height imageWidth imageHeight yaw pitch zoom fov : R)
  (projectionType : ProjectionType) : SampleCoord :=
  let nx := 2 * x / width - 1 in
  let ny := 2 * y / height - 1 in
  let aspectRatio := width / height in
  let zoomedNx := nx / zoom in
  let zoomedNy := ny / zoom in
  let strategy := getProjectionStrategy projectionType in
  let '(theta, phi) :=
    viewportToAngles strategy zoomedNx zoomedNy fov aspectRatio in
  let lon := theta + yaw in
  let lat := phi + pitch in
  (* the two inline loops are those of [normalizeAngle] *)
  let lon := normalizeAngle lon in
  let lat := Math.max (- Math.PI / 2) (Math.min (Math.PI / 2) lat) in
  let srcX := (lon + Math.PI) / (2 * Math.PI) * imageWidth in
  let srcY := (lat + Math.PI / 2) / Math.PI * imageHeight in
  mkSample srcX srcY.

(** The two visibility tests of [projectToViewport]. *)
Definition outsideField (nx ny : R) : bool :=
  gtb (Math.abs nx) 1.2 || gtb (Math.abs ny) 1.2.

Definition outsideMargin (x y width height : R) : bool :=
  ltb x (-100) || gtb x (width + 100)
  || ltb y (-100) || gtb y (height + 100).

Definition projectToViewport
  (srcX srcY imageWidth imageHeight width height yaw pitch zoom fov : R)
  (projectionType : ProjectionType) : option PixelCoord :=
  let lon := srcX / imageWidth * 2 * Math.PI - Math.PI in
  let lat := srcY / imageHeight * Math.PI - Math.PI / 2 in
  let theta := lon - yaw in
  let phi := lat - pitch in
  let theta := normalizeAngle theta in
  let aspectRatio := width / height in
  let strategy := getProjectionStrategy projectionType in
  let '(nx, ny) := anglesToViewport strategy theta phi fov aspectRatio in
  if outsideField nx ny then None
  else
    let zoomedNx := nx * zoom in
    let zoomedNy := ny * zoom in
    let x := (zoomedNx + 1) / 2 * width in
    let y := (zoomedNy + 1) / 2 * height in
    if outsideMargin x y width height then None
    else Some (mkPixel x y).

(** ** labelRenderer.ts *)

(** What the code draws through a 2D context: each command carries the
    context settings ([fillStyle], [strokeStyle], [lineWidth], [font],
    [textAlign], [textBaseline]) in force when it is issued. *)
Inductive DrawCommand : Type :=
| FillRect (fillStyle : string) (x y w h : R)
| StrokeRect (strokeStyle : string) (lineWidth : R) (x y w h : R)
| FillText (fillStyle font textAlign textBaseline text : string) (x y : R)
| PutImageData (data : list Z) (dx dy : R).

(** JavaScript truthiness of an optional string: [undefined] and the empty
    string are falsy. *)
Definition truthy (s : option string) : bool :=
  match s with
  | Some s' => negb (String.eqb s' EmptyString)
  | None => false
  end.

Module LabelRenderer.

Definition fillColor : string := "rgba(255, 200, 0, 0.3)".
Definition strokeColor : string := "rgba(255, 200, 0, 0.8)".
Definition textColor : string := "#ffffff".
Definition font : string := "14px sans-serif".
Definition textAlign : string := "center".
Definition textBaseline : string := "middle".

Definition corners (label : PanoramaLabel) : list (R * R) :=
  [ (label_x label, label_y label);
    (label_x label + label_w label, label_y label);
    (label_x label, label_y label + label_h label);
    (label_x label + label_w label, label_y label + label_h label) ].

Definition projectedCorners
  (viewportWidth viewportHeight imageWidth imageHeight
   yaw pitch zoom fov : R) (projectionType : ProjectionType)
  (label : PanoramaLabel) : list (option PixelCoord) :=
  map (fun corner =>
         projectToViewport (fst corner) (snd corner)
           imageWidth imageHeight viewportWidth viewportHeight
           yaw pitch zoom fov projectionType)
      (corners label).

(** [projectedCorners.filter(c => c !== null)], read through [c!]. *)
Definition visibleCorners (projected : list (option PixelCoord))
  : list PixelCoord :=
  omap (fun c => c) projected.

(** The body of the loop from the visibility test on: the commands drawn
    for a label with the given projected corners. *)
Definition drawLabel (label : PanoramaLabel)
  (projected : list (option PixelCoord)) : list DrawCommand :=
  match visibleCorners projected with
  | [] => []
  | c0 :: cs =>
      let minX := Math.minOf (pixel_x c0) (map pixel_x cs) in
      let maxX := Math.maxOf (pixel_x c0) (map pixel_x cs) in
      let minY := Math.minOf (pixel_y c0) (map pixel_y cs) in
      let maxY := Math.maxOf (pixel_y c0) (map pixel_y cs) in
      let rectX := minX in
      let rectY := minY in
      let rectW := maxX - minX in
      let rectH := maxY - minY in
      [ FillRect fillColor rectX rectY rectW rectH;
        StrokeRect strokeColor 2 rectX rectY rectW rectH ]
      ++ (if truthy (label_title label) && gtb rectW 50 && gtb rectH 20
          then [ FillText textColor font textAlign textBaseline
                   (default EmptyString (label_title label))
                   (rectX + rectW / 2) (rectY + rectH / 2) ]
          else [])
  end.

Definition renderLabel
  (viewportWidth viewportHeight imageWidth imageHeight
   yaw pitch zoom fov : R) (projectionType : ProjectionType)
  (label : PanoramaLabel) : list DrawCommand :=
  drawLabel label
    (projectedCorners viewportWidth viewportHeight imageWidth imageHeight
       yaw pitch zoom fov projectionType label).

(** [render]: the commands for all labels, in list order. *)
Definition render (labels : list PanoramaLabel)
  (viewportWidth viewportHeight imageWidth imageHeight
   yaw pitch zoom fov : R) (projectionType : ProjectionType)
  : list DrawCommand :=
  flat_map
    (renderLabel viewportWidth viewportHeight imageWidth imageHeight
       yaw pitch zoom fov projectionType)
    labels.

End LabelRenderer.

(** ** renderer.ts *)

(** A decoded image: its dimensions and its RGBA bytes, row by row. *)
Record HTMLImage : Type := mkImage {
  image_width : Z;
  image_height : Z;
  image_pixels : list Z
}.

(** [Required<RendererConfig>]: the configuration after defaults. *)
Record RendererConfig : Type := mkConfig {
  initialYaw : R;
  initialPitch : R;
  initialZoom : R;
  minZoom : R;
  maxZoom : R;
  config_fov : R;
  enableKeyboard : bool;
  sensitivity : R;
  config_projectionType : ProjectionType
}.

(** The errors the renderer raises; the text of each message is determined
    by the data carried here.  [LoadFailed src hostname] is the error built
    by [img.onerror]: [hostname] is the host named in the list of possible
    causes, which is only added for a source starting with [http://] or
    [https://].  [InvalidUrl src] is the [TypeError] of [new URL(src)]. *)
Inductive Error : Type :=
| ImageTooSmall (width height : Z)
| ImageTooLarge (width height : Z)
| LoadFailed (src : string) (hostname : option string)
| InvalidUrl (src : string)
| CanvasTooSmall (width height : Z)
| SourceContextFailed
| NullSourceData.

Inductive CallbackEvent : Type :=
| OnLoad
| OnError (e : Error)
| OnViewChange (s : ViewState).

(** The fields of [FishEyePanoramaRenderer].  [drawn] is what has been
    issued on [this.ctx], [called] the calls made to [this.callbacks];
    [sourceCtx] is left out (it is set together with [sourceData]).
    The last two fields are the platform: the handle the next
    [requestAnimationFrame] returns, and whether an off-screen canvas
    yields a 2D context. *)
Record Renderer : Type := mkRenderer {
  canvas_width : nat;
  canvas_height : nat;
  drawn : list DrawCommand;
  image : option HTMLImage;
  state : ViewState;
  config : RendererConfig;
  called : list CallbackEvent;
  animationFrameId : option nat;
  isDirty : bool;
  dragStart : option (R * R);
  _dragStartState : option (R * R);
  sourceCanvas : option (Z * Z);
  sourceData : option (list Z);
  labelRenderer : option (list PanoramaLabel);
  projectionType : ProjectionType;
  nextFrameHandle : nat;
  offscreenContext : bool
}.

Definition set_canvas_width (v : nat) (r : Renderer) : Renderer :=
  mkRenderer v (canvas_height r) (drawn r) (image r) (state r) (config r)
    (called r) (animationFrameId r) (isDirty r) (dragStart r)
    (_dragStartState r) (sourceCanvas r) (sourceData r) (labelRenderer r)
    (projectionType r) (nextFrameHandle r) (offscreenContext r).

Definition set_canvas_height (v : nat) (r : Renderer) : Renderer :=
  mkRenderer (canvas_width r) v (drawn r) (image r) (state r) (config r)
    (called r) (animationFrameId r) (isDirty r) (dragStart r)
    (_dragStartState r) (sourceCanvas r) (sourceData r) (labelRenderer r)
    (projectionType r) (nextFrameHandle r) (offscreenContext r).

Definition set_drawn (v : list DrawCommand) (r : Renderer) : Renderer :=
  mkRenderer (canvas_width r) (canvas_height r) v (image r) (state r)
    (config r) (called r) (animationFrameId r) (isDirty r) (dragStart r)
    (_dragStartState r) (sourceCanvas r) (sourceData r) (labelRenderer r)
    (projectionType r) (nextFrameHandle r) (offscreenContext r).

Definition set_image (v : option HTMLImage) (r : Renderer) : Renderer :=
  mkRenderer (canvas_width r) (canvas_height r) (drawn r) v (state r)
    (config r) (called r) (animationFrameId r) (isDirty r) (dragStart r)
    (_dragStartState r) (sourceCanvas r) (sourceData r) (labelRenderer r)
    (projectionType r) (nextFrameHandle r) (offscreenContext r).

Definition set_state (v : ViewState) (r : Renderer) : Renderer :=
  mkRenderer (canvas_width r) (canvas_height r) (drawn r) (image r) v
    (config r) (called r) (animationFrameId r) (isDirty r) (dragStart r)
    (_dragStartState r) (sourceCanvas r) (sourceData r) (labelRenderer r)
    (projectionType r) (nextFrameHandle r) (offscreenContext r).

Definition set_config (v : RendererConfig) (r : Renderer) : Renderer :=
  mkRenderer (canvas_width r) (canvas_height r) (drawn r) (image r) (state
    r) v (called r) (animationFrameId r) (isDirty r) (dragStart r)
    (_dragStartState r) (sourceCanvas r) (sourceData r) (labelRenderer r)
    (projectionType r) (nextFrameHandle r) (offscreenContext r).

Definition set_called (v : list CallbackEvent) (r : Renderer) : Renderer :=
  mkRenderer (canvas_width r) (canvas_height r) (drawn r) (image r) (state
    r) (config r) v (animationFrameId r) (isDirty r) (dragStart r)
    (_dragStartState r) (sourceCanvas r) (sourceData r) (labelRenderer r)
    (projectionType r) (nextFrameHandle r) (offscreenContext r).

Definition set_animationFrameId (v : option nat) (r : Renderer) : Renderer :=
  mkRenderer (canvas_width r) (canvas_height r) (drawn r) (image r) (state
    r) (config r) (called r) v (isDirty r) (dragStart r) (_dragStartState r)
    (sourceCanvas r) (sourceData r) (labelRenderer r) (projectionType r)
    (nextFrameHandle r) (offscreenContext r).

Definition set_isDirty (v : bool) (r : Renderer) : Renderer :=
  mkRenderer (canvas_width r) (canvas_height r) (drawn r) (image r) (state
    r) (config r) (called r) (animationFrameId r) v (dragStart r)
    (_dragStartState r) (sourceCanvas r) (sourceData r) (labelRenderer r)
    (projectionType r) (nextFrameHandle r) (offscreenContext r).

Definition set_dragStart (v : option (R * R)) (r : Renderer) : Renderer :=
  mkRenderer (canvas_width r) (canvas_height r) (drawn r) (image r) (state
    r) (config r) (called r) (animationFrameId r) (isDirty r) v
    (_dragStartState r) (sourceCanvas r) (sourceData r) (labelRenderer r)
    (projectionType r) (nextFrameHandle r) (offscreenContext r).

Definition set_dragStartState (v : option (R * R)) (r : Renderer) : Renderer :=
  mkRenderer (canvas_width r) (canvas_height r) (drawn r) (image r) (state
    r) (config r) (called r) (animationFrameId r) (isDirty r) (dragStart r)
    v (sourceCanvas r) (sourceData r) (labelRenderer r) (projectionType r)
    (nextFrameHandle r) (offscreenContext r).

Definition set_sourceCanvas (v : option (Z * Z)) (r : Renderer) : Renderer :=
  mkRenderer (canvas_width r) (canvas_height r) (drawn r) (image r) (state
    r) (config r) (called r) (animationFrameId r) (isDirty r) (dragStart r)
    (_dragStartState r) v (sourceData r) (labelRenderer r) (projectionType
    r) (nextFrameHandle r) (offscreenContext r).

Definition set_sourceData (v : option (list Z)) (r : Renderer) : Renderer :=
  mkRenderer (canvas_width r) (canvas_height r) (drawn r) (image r) (state
    r) (config r) (called r) (animationFrameId r) (isDirty r) (dragStart r)
    (_dragStartState r) (sourceCanvas r) v (labelRenderer r) (projectionType
    r) (nextFrameHandle r) (offscreenContext r).

Definition set_labelRenderer (v : option (list PanoramaLabel)) (r : Renderer) : Renderer :=
  mkRenderer (canvas_width r) (canvas_height r) (drawn r) (image r) (state
    r) (config r) (called r) (animationFrameId r) (isDirty r) (dragStart r)
    (_dragStartState r) (sourceCanvas r) (sourceData r) v (projectionType r)
    (nextFrameHandle r) (offscreenContext r).

Definition set_projectionType (v : ProjectionType) (r : Renderer) : Renderer :=
  mkRenderer (canvas_width r) (canvas_height r) (drawn r) (image r) (state
    r) (config r) (called r) (animationFrameId r) (isDirty r) (dragStart r)
    (_dragStartState r) (sourceCanvas r) (sourceData r) (labelRenderer r) v
    (nextFrameHandle r) (offscreenContext r).

Definition set_nextFrameHandle (v : nat) (r : Renderer) : Renderer :=
  mkRenderer (canvas_width r) (canvas_height r) (drawn r) (image r) (state
    r) (config r) (called r) (animationFrameId r) (isDirty r) (dragStart r)
    (_dragStartState r) (sourceCanvas r) (sourceData r) (labelRenderer r)
    (projectionType r) v (offscreenContext r).

Definition set_offscreenContext (v : bool) (r : Renderer) : Renderer :=
  mkRenderer (canvas_width r) (canvas_height r) (drawn r) (image r) (state
    r) (config r) (called r) (animationFrameId r) (isDirty r) (dragStart r)
    (_dragStartState r) (sourceCanvas r) (sourceData r) (labelRenderer r)
    (projectionType r) (nextFrameHandle r) v.

Definition set_yaw (v : R) (s : ViewState) : ViewState :=
  mkViewState v (pitch s) (zoom s) (isDragging s).

Definition set_pitch (v : R) (s : ViewState) : ViewState :=
  mkViewState (yaw s) v (zoom s) (isDragging s).

Definition set_zoom (v : R) (s : ViewState) : ViewState :=
  mkViewState (yaw s) (pitch s) v (isDragging s).

Definition set_isDragging (v : bool) (s : ViewState) : ViewState :=
  mkViewState (yaw s) (pitch s) (zoom s) v.

(** Issue commands on [this.ctx]; call one of [this.callbacks]. *)
Definition draw (cmds : list DrawCommand) (r : Renderer) : Renderer :=
  set_drawn (drawn r ++ cmds) r.

Definition call (ev : CallbackEvent) (r : Renderer) : Renderer :=
  set_called (called r ++ [ev]) r.

(** Methods that may throw: the outcome and the renderer afterwards.
    [destroy] and the wiring of the DOM listeners to [handleInput] are
    not part of the model. *)
Definition M (A : Type) : Type := Renderer -> (Error + A) * Renderer.

Definition ret {A : Type} (a : A) : M A := fun r => (inr a, r).

Definition throw {A : Type} (e : Error) : M A := fun r => (inl e, r).

Definition bind {A B : Type} (m : M A) (k : A -> M B) : M B :=
  fun r =>
    match m r with
    | (inl e, r') => (inl e, r')
    | (inr a, r') => k a r'
    end.

Definition gets {A : Type} (f : Renderer -> A) : M A := fun r => (inr (f r), r).

Definition modify (f : Renderer -> Renderer) : M unit :=
  fun r => (inr tt, f r).

Notation "'let*' x := m 'in' k" := (bind m (fun x => k))
  (at level 10, x name, m at level 100, k at level 200).
Notation "m >> k" := (bind m (fun _ => k))
  (at level 100, k at level 200, right associativity).

(** [source[index]] as stored into the destination bytes: a read outside
    the array is [undefined], which a byte array stores as [0]. *)
Definition readByte (data : list Z) (index : Z) : Z :=
  if (index <? 0)%Z then 0%Z else default 0%Z (data !! Z.to_nat index).

(** [((srcX % imageWidth) + imageWidth) % imageWidth]; [%] is the
    remainder of the division truncated towards zero. *)
Definition wrappedSrcX (srcX imageWidth : Z) : Z :=
  Z.rem (Z.rem srcX imageWidth + imageWidth) imageWidth.

Definition wrappedSrcY (srcY imageHeight : Z) : Z :=
  Z.max 0 (Z.min (imageHeight - 1) srcY).

(** The body of the two pixel loops of [render]. *)
Definition renderPixel (source : list Z) (width height : nat)
  (imageWidth imageHeight : Z) (yaw pitch zoom fov : R)
  (projectionType : ProjectionType) (y x : nat) (dest : list Z) : list Z :=
  let sample :=
    projectToSource (INR x) (INR y) (INR width) (INR height)
      (IZR imageWidth) (IZR imageHeight)
      (degToRad yaw) (degToRad pitch) zoom fov projectionType in
  let srcX := Math.floor (sample_x sample) in
  let srcY := Math.floor (sample_y sample) in
  let wrappedX := wrappedSrcX srcX imageWidth in
  let wrappedY := wrappedSrcY srcY imageHeight in
  let destIndex := ((y * width + x) * 4)%nat in
  let srcIndex := ((wrappedY * imageWidth + wrappedX) * 4)%Z in
  let dest := <[destIndex := readByte source srcIndex]> dest in
  let dest := <[(destIndex + 1)%nat := readByte source (srcIndex + 1)]> dest in
  let dest := <[(destIndex + 2)%nat := readByte source (srcIndex + 2)]> dest in
  <[(destIndex + 3)%nat := 255%Z]> dest.

Definition renderRow (source : list Z) (width height : nat)
  (imageWidth imageHeight : Z) (yaw pitch zoom fov : R)
  (projectionType : ProjectionType) (y : nat) (dest : list Z) : list Z :=
  fold_left
    (fun dest x =>
       renderPixel source width height imageWidth imageHeight
         yaw pitch zoom fov projectionType y x dest)
    (seq 0 width) dest.

(** [createImageData(width, height)] filled by the loops
    [for y < height], [for x < width]. *)
Definition rasterize (source : list Z) (width height : nat)
  (imageWidth imageHeight : Z) (yaw pitch zoom fov : R)
  (projectionType : ProjectionType) : list Z :=
  fold_left
    (fun dest y =>
       renderRow source width height imageWidth imageHeight
         yaw pitch zoom fov projectionType y dest)
    (seq 0 height)
    (replicate (width * height * 4) 0%Z).

(** The off-screen canvas and the cached source bytes, set up on the
    first render.  Returns [false] when no context could be obtained
    ([onError] has then been called). *)
Definition ensureSource (img : HTMLImage) : M bool :=
  let* sc := gets sourceCanvas in
  match sc with
  | Some _ => ret true
  | None =>
      modify (set_sourceCanvas (Some (image_width img, image_height img))) >>
      let* available := gets offscreenContext in
      if available
      then modify (set_sourceData (Some (image_pixels img))) >> ret true
      else modify (call (OnError SourceContextFailed)) >> ret false
  end.

Definition render : M unit :=
  let* dirty := gets isDirty in
  let* current := gets image in
  match dirty, current with
  | true, Some img =>
      let* width := gets canvas_width in
      let* height := gets canvas_height in
      let* st := gets state in
      let* cfg := gets config in
      let fov := degToRad (config_fov cfg) in
      modify (draw [FillRect "#000" 0 0 (INR width) (INR height)]) >>
      let* ready := ensureSource img in
      if negb ready then ret tt
      else
        let* cached := gets sourceData in
        match cached with
        | None => throw NullSourceData
        | Some source =>
            let imageWidth := image_width img in
            let imageHeight := image_height img in
            let* projection := gets projectionType in
            let dest :=
              rasterize source width height imageWidth imageHeight
                (yaw st) (pitch st) (zoom st) fov projection in
            modify (draw [PutImageData dest 0 0]) >>
            let* lr := gets labelRenderer in
            match lr with
            | Some labels =>
                modify (draw
                  (LabelRenderer.render labels (INR width) (INR height)
                     (IZR imageWidth) (IZR imageHeight)
                     (degToRad (yaw st)) (degToRad (pitch st)) (zoom st)
                     fov projection))
            | None => ret tt
            end >>
            modify (set_isDirty false)
        end
  | _, _ => ret tt
  end.

(** The callback given to [requestAnimationFrame], when it fires. *)
Definition animationFrame : M unit :=
  render >>
  modify (set_animationFrameId None) >>
  let* st := gets state in
  modify (call (OnViewChange st)).

Definition scheduleRender (r : Renderer) : Renderer :=
  match animationFrameId r with
  | Some _ => r
  | None =>
      set_nextFrameHandle (S (nextFrameHandle r))
        (set_animationFrameId (Some (nextFrameHandle r)) r)
  end.

Definition markDirty (r : Renderer) : Renderer :=
  scheduleRender (set_isDirty true r).

(** What the platform reports for [img.src = src]: [onload] with the
    decoded image, or [onerror].  [Failed url] also carries what the
    platform's [new URL(src)] gives for this source: [Some hostname], or
    [None] when the constructor throws because [src] is not a valid
    absolute URL (as for ["http://"]). *)
Inductive LoadOutcome : Type :=
| Decoded (img : HTMLImage)
| Failed (url : option string).

(** [src.startsWith('http://') || src.startsWith('https://')] *)
Definition looksRemote (src : string) : bool :=
  String.prefix "http://" src || String.prefix "https://" src.

(** [loadImage]: [inl e] is the promise rejected with [e] (or the handler
    stopped by [e]), [inr tt] the promise resolved.  In [img.onerror] the
    source is parsed with [new URL(src)] only when it starts with
    [http://] or [https://]; when that throws, the handler stops before
    [onError] is called and before the promise is rejected. *)
Definition loadImage (src : string) (outcome : LoadOutcome) : M unit :=
  match outcome with
  | Decoded img =>
      if (image_width img <? CONSTRAINTS.MIN_IMAGE_WIDTH)%Z
         || (image_height img <? CONSTRAINTS.MIN_IMAGE_HEIGHT)%Z
      then throw (ImageTooSmall (image_width img) (image_height img))
      else if (image_width img >? CONSTRAINTS.MAX_IMAGE_WIDTH)%Z
              || (image_height img >? CONSTRAINTS.MAX_IMAGE_HEIGHT)%Z
      then throw (ImageTooLarge (image_width img) (image_height img))
      else
        modify (set_image (Some img)) >>
        modify (set_isDirty true) >>
        render >>
        modify (call OnLoad)
  | Failed url =>
      let* hostname :=
        if looksRemote src
        then match url with
             | Some hostname => ret (Some hostname)
             | None => throw (InvalidUrl src)
             end
        else ret None in
      let error := LoadFailed src hostname in
      modify (call (OnError error)) >>
      throw error
  end.

Definition resize (width height : Z) : M unit :=
  if (width <? CONSTRAINTS.MIN_CANVAS_SIZE)%Z
     || (height <? CONSTRAINTS.MIN_CANVAS_SIZE)%Z
  then throw (CanvasTooSmall width height)
  else
    modify (set_canvas_width (Z.to_nat width)) >>
    modify (set_canvas_height (Z.to_nat height)) >>
    modify markDirty.

(** Input events. *)
Inductive InputType : Type :=
| mouse_down | mouse_move | mouse_up | mouse_leave | wheel
| touch_start | touch_move | touch_end | key_down.

Record InputData : Type := mkInput {
  data_x : option R;
  data_y : option R;
  data_dx : option R;
  data_dy : option R;
  data_deltaY : option R;
  data_key : option string;
  data_touches : option (list (R * R))
}.

Definition noData : InputData :=
  mkInput None None None None None None None.

Definition handleMouseDown (data : InputData) (r : Renderer) : Renderer :=
  match data_x data, data_y data with
  | Some x, Some y =>
      let r := set_dragStart (Some (x, y)) r in
      let r := set_dragStartState
                 (Some (yaw (state r), pitch (state r))) r in
      set_state (set_isDragging true (state r)) r
  | _, _ => r
  end.

Definition handleMouseMove (data : InputData) (r : Renderer) : Renderer :=
  if negb (isDragging (state r)) then r
  else
    match data_dx data, data_dy data with
    | Some dx, Some dy =>
        let baseSensitivity := sensitivity (config r) in
        let strategy := getProjectionStrategy (projectionType r) in
        let velocity := getDragVelocity strategy 0 0 baseSensitivity in
        let r := set_state
                   (set_yaw (yaw (state r) - dx * fst velocity) (state r))
                   r in
        let r := set_state
                   (set_pitch (pitch (state r) - dy * snd velocity)
                      (state r)) r in
        let r := set_state
                   (set_pitch
                      (clamp (pitch (state r))
                         CONSTRAINTS.MIN_PITCH CONSTRAINTS.MAX_PITCH)
                      (state r)) r in
        let r := set_state
                   (set_yaw
                      (radToDeg (normalizeAngle (degToRad (yaw (state r)))))
                      (state r)) r in
        markDirty r
    | _, _ => r
    end.

Definition handleMouseUp (r : Renderer) : Renderer :=
  let r := set_state (set_isDragging false (state r)) r in
  let r := set_dragStart None r in
  set_dragStartState None r.

Definition handleWheel (data : InputData) (r : Renderer) : Renderer :=
  match data_deltaY data with
  | Some deltaY =>
      let zoomDelta := if gtb deltaY 0 then -0.1 else 0.1 in
      let r := set_state
                 (set_zoom
                    (clamp (zoom (state r) + zoomDelta)
                       (minZoom (config r)) (maxZoom (config r)))
                    (state r)) r in
      markDirty r
  | None => r
  end.

Definition handleTouchStart (data : InputData) (r : Renderer) : Renderer :=
  match data_touches data with
  | Some (touch :: _) =>
      handleMouseDown
        (mkInput (Some (fst touch)) (Some (snd touch))
           None None None None None) r
  | _ => r
  end.

Definition handleTouchMove (data : InputData) (r : Renderer) : Renderer :=
  match data_touches data with
  | Some (touch :: _) =>
      match dragStart r with
      | Some start =>
          let dx := fst touch - fst start in
          let dy := snd touch - snd start in
          let r := handleMouseMove
                     (mkInput None None (Some dx) (Some dy) None None None)
                     r in
          let r := set_dragStart (Some (fst touch, snd touch)) r in
          set_dragStartState (Some (yaw (state r), pitch (state r))) r
      | None => r
      end
  | _ => r
  end.

Definition handleTouchEnd (r : Renderer) : Renderer := handleMouseUp r.

Definition handleKeyDown (data : InputData) (r : Renderer) : Renderer :=
  if negb (enableKeyboard (config r)) then r
  else
    let step := 5 in
    let key := default EmptyString (data_key data) in
    let '(r, changed) :=
      if String.eqb key "ArrowLeft"
      then (set_state (set_yaw (yaw (state r) - step) (state r)) r, true)
      else if String.eqb key "ArrowRight"
      then (set_state (set_yaw (yaw (state r) + step) (state r)) r, true)
      else if String.eqb key "ArrowUp"
      then (set_state
              (set_pitch
                 (Math.min CONSTRAINTS.MAX_PITCH (pitch (state r) + step))
                 (state r)) r, true)
      else if String.eqb key "ArrowDown"
      then (set_state
              (set_pitch
                 (Math.max CONSTRAINTS.MIN_PITCH (pitch (state r) - step))
                 (state r)) r, true)
      else (r, false) in
    if changed
    then
      let r := set_state
                 (set_yaw
                    (radToDeg (normalizeAngle (degToRad (yaw (state r)))))
                    (state r)) r in
      markDirty r
    else r.

Definition handleInput (type : InputType) (data : InputData)
  (r : Renderer) : Renderer :=
  match type with
  | mouse_down => handleMouseDown data r
  | mouse_move => handleMouseMove data r
  | mouse_up | mouse_leave => handleMouseUp r
  | wheel => handleWheel data r
  | touch_start => handleTouchStart data r
  | touch_move => handleTouchMove data r
  | touch_end => handleTouchEnd r
  | key_down => handleKeyDown data r
  end.

Definition getState (r : Renderer) : ViewState :=
  mkViewState (yaw (state r)) (pitch (state r)) (zoom (state r))
    (isDragging (state r)).

(** [Partial<ViewState>], as far as [setState] reads it. *)
Record PartialViewState : Type := mkPartial {
  partial_yaw : option R;
  partial_pitch : option R;
  partial_zoom : option R
}.

Definition setState (partialState : PartialViewState) (r : Renderer)
  : Renderer :=
  let r := match partial_yaw partialState with
           | Some v => set_state (set_yaw v (state r)) r
           | None => r
           end in
  let r := match partial_pitch partialState with
           | Some v =>
               set_state
                 (set_pitch
                    (clamp v CONSTRAINTS.MIN_PITCH CONSTRAINTS.MAX_PITCH)
                    (state r)) r
           | None => r
           end in
  let r := match partial_zoom partialState with
           | Some v =>
               set_state
                 (set_zoom
                    (clamp v (minZoom (config r)) (maxZoom (config r)))
                    (state r)) r
           | None => r
           end in
  markDirty r.

Definition setLabels (labels : list PanoramaLabel) (r : Renderer)
  : Renderer :=
  match labelRenderer r with
  | Some _ => markDirty (set_labelRenderer (Some labels) r)
  | None => r
  end.

(** The constructor, for a canvas of the given size that yields a 2D
    context, with the configuration after defaults. *)
Definition construct (canvasWidth canvasHeight : nat)
  (cfg : RendererConfig) (offscreen : bool) : Renderer :=
  mkRenderer canvasWidth canvasHeight [] None
    (mkViewState (initialYaw cfg)
       (clamp (initialPitch cfg)
          CONSTRAINTS.MIN_PITCH CONSTRAINTS.MAX_PITCH)
       (clamp (initialZoom cfg) (minZoom cfg) (maxZoom cfg))
       false)
    cfg [] None true None None None None (Some [])
    (config_projectionType cfg) 1 offscreen.

(** The configuration the constructor builds from an empty object. *)
Definition defaultConfig : RendererConfig :=
  mkConfig 0 0 1.0 CONSTRAINTS.DEFAULT_MIN_ZOOM CONSTRAINTS.DEFAULT_MAX_ZOOM
    CONSTRAINTS.DEFAULT_FOV true 0.5 EQUIDISTANT.

(** Event data as the DOM listeners build it. *)
Definition pointerAt (x y : R) : InputData :=
  mkInput (Some x) (Some y) None None None None None.

Definition movement (dx dy : R) : InputData :=
  mkInput None None (Some dx) (Some dy) None None None.

Definition keyPress (key : string) : InputData :=
  mkInput None None None None None (Some key) None.

(** [anglesToViewport] after [viewportToAngles], with the same field of
    view and aspect ratio. *)
Definition roundTrip (type : ProjectionType) (nx ny fov aspectRatio : R)
  : R * R :=
  let strategy := getProjectionStrategy type in
  let '(theta, phi) := viewportToAngles strategy nx ny fov aspectRatio in
  anglesToViewport strategy theta phi fov aspectRatio.

(** The values [projectToViewport] tests: the normalised coordinates
    [(nx, ny)] given by the strategy, before zoom, and the pixel [(x, y)]
    they map to after zoom. *)
Definition normalisedTarget
  (srcX srcY imageWidth imageHeight width height yaw pitch fov : R)
  (projectionType : ProjectionType) : R * R :=
  let lon := srcX / imageWidth * 2 * Math.PI - Math.PI in
  let lat := srcY / imageHeight * Math.PI - Math.PI / 2 in
  anglesToViewport (getProjectionStrategy projectionType)
    (normalizeAngle (lon - yaw)) (lat - pitch) fov (width / height).

Definition pixelTarget (n zoom extent : R) : R := (n * zoom + 1) / 2 * extent.

(** The least and the greatest element of a list of numbers. *)
Definition least (m : R) (l : list R) : Prop :=
  In m l /\ Forall (fun v => m <= v) l.

Definition greatest (m : R) (l : list R) : Prop :=
  In m l /\ Forall (fun v => v <= m) l.

(** The source coordinates the pixel loops compute for the destination
    pixel [(x, y)]: the floor of the mapped sample. *)
Definition sampledAt (width height : nat) (imageWidth imageHeight : Z)
  (yaw pitch zoom fov : R) (projectionType : ProjectionType) (y x : nat)
  : Z * Z :=
  let sample :=
    projectToSource (INR x) (INR y) (INR width) (INR height)
      (IZR imageWidth) (IZR imageHeight)
      (degToRad yaw) (degToRad pitch) zoom fov projectionType in
  (Math.floor (sample_x sample), Math.floor (sample_y sample)).

(** The four bytes written for a pixel whose floored sample is
    [(srcX, srcY)]. *)
Definition writtenBytes (source : list Z) (imageWidth imageHeight : Z)
  (srcX srcY : Z) : list Z :=
  let srcIndex :=
    ((wrappedSrcY srcY imageHeight * imageWidth
      + wrappedSrcX srcX imageWidth) * 4)%Z in
  [ readByte source srcIndex; readByte source (srcIndex + 1);
    readByte source (srcIndex + 2); 255%Z ].


(** A decoded image of the given dimensions, all bytes zero. *)
Definition blankImage (width height : Z) : HTMLImage :=
  mkImage width height (replicate (Z.to_nat (width * height * 4)) 0%Z).

(** The renderer right after construction on an 800 x 600 canvas, with
    the default configuration. *)
Definition freshRenderer : Renderer := construct 800 600 defaultConfig true.

(** The two dimension conditions of the specification. *)
Definition tooSmall (img : HTMLImage) : Prop :=
  (image_width img < 512 \/ image_height img < 256)%Z.

Definition tooLarge (img : HTMLImage) : Prop :=
  (image_width img > 8192 \/ image_height img > 4096)%Z.


(** ** Sequences of calls

    What an embedding application does to a renderer between construction
    and teardown: input events, the public methods, and the animation
    frame, which fires only while one is pending.  For a method that
    throws, the renderer is the one left behind by the throw. *)
Inductive Operation : Type :=
| OpInput (type : InputType) (data : InputData)
| OpSetState (partialState : PartialViewState)
| OpSetLabels (labels : list PanoramaLabel)
| OpResize (width height : Z)
| OpLoadImage (src : string) (outcome : LoadOutcome)
| OpAnimationFrame.

Definition perform (op : Operation) (r : Renderer) : Renderer :=
  match op with
  | OpInput type data => handleInput type data r
  | OpSetState partialState => setState partialState r
  | OpSetLabels labels => setLabels labels r
  | OpResize width height => snd (resize width height r)
  | OpLoadImage src outcome => snd (loadImage src outcome r)
  | OpAnimationFrame =>
      match animationFrameId r with
      | Some _ => snd (animationFrame r)
      | None => r
      end
  end.

Definition performAll (ops : list Operation) (r : Renderer) : Renderer :=
  fold_left (fun r op => perform op r) ops r.

(** ** urlParams.ts: [parseNumberParam]

    [parseFloat] is the platform's: [None] stands for [NaN], [Some v] for
    a finite number. *)
Section UrlParams.

Variable parseFloat : string -> option R.

Definition parseNumberParam (param : option string) (defaultValue : R)
  (min max : option R) : R :=
  match param with
  | None => defaultValue
  | Some EmptyString => defaultValue
  | Some text =>
      match parseFloat text with
      | None => defaultValue
      | Some num =>
          let result := num in
          let result :=
            match min with
            | Some m => if ltb result m then m else result
            | None => result
            end in
          let result :=
            match max with
            | Some m => if gtb result m then m else result
            | None => result
            end in
          result
      end
  end.

End UrlParams.

(** ** App.tsx: the canvas size measured from the container *)
Definition updateDimensions (rectWidth rectHeight : R) : Z * Z :=
  (Z.max (Math.floor rectWidth) 100, Z.max (Math.floor rectHeight) 100).

(** The bounds the view state is meant to keep: pitch within a quarter
    turn, zoom not below the configured minimum, and not above the
    configured maximum when the two are in order. *)
Definition withinBounds (cfg : RendererConfig) (s : ViewState) : Prop :=
  -90 <= pitch s <= 90
  /\ minZoom cfg <= zoom s
  /\ (minZoom cfg <= maxZoom cfg -> zoom s <= maxZoom cfg).

(** A yaw within half a turn either way. *)
Definition yawInRange (v : R) : Prop := -180 <= v <= 180.

(** An operation that hands the renderer no yaw outside half a turn:
    anything but a [setState] with such a yaw. *)
Definition givesYawInRange (op : Operation) : Prop :=
  match op with
  | OpSetState partialState =>
      match partial_yaw partialState with
      | Some v => yawInRange v
      | None => True
      end
  | _ => True
  end.

(** More event data as the DOM listeners build it. *)
Definition wheelBy (deltaY : R) : InputData :=
  mkInput None None None None (Some deltaY) None None.

Definition touchAt (x y : R) : InputData :=
  mkInput None None None None None None (Some [(x, y)]).

(** The same event delivered [n] times. *)
Definition repeated (n : nat) (type : InputType) (data : InputData)
  (r : Renderer) : Renderer :=
  Nat.iter n (handleInput type data) r.

(** Whether an image passes both dimension checks. *)
Definition accepted (img : HTMLImage) : bool :=
  (512 <=? image_width img)%Z && (256 <=? image_height img)%Z
  && (image_width img <=? 8192)%Z && (image_height img <=? 4096)%Z.

(** The label list of the last [setLabels] in a sequence of calls, and
    the last image of accepted dimensions that a load delivered. *)
Definition lastLabels (ops : list Operation) (initial : list PanoramaLabel)
  : list PanoramaLabel :=
  fold_left
    (fun current op =>
       match op with
       | OpSetLabels labels => labels
       | _ => current
       end)
    ops initial.

Definition lastAccepted (ops : list Operation) (initial : option HTMLImage)
  : option HTMLImage :=
  fold_left
    (fun current op =>
       match op with
       | OpLoadImage _ (Decoded img) =>
           if accepted img then Some img else current
       | _ => current
       end)
    ops initial.

(** The rectangles a list of commands fills, and those it strokes, in
    drawing order. *)
Definition filledRects (cmds : list DrawCommand) : list (R * R * R * R) :=
  omap (fun cmd =>
          match cmd with
          | FillRect _ x y w h => Some (x, y, w, h)
          | _ => None
          end)
       cmds.

Definition strokedRects (cmds : list DrawCommand) : list (R * R * R * R) :=
  omap (fun cmd =>
          match cmd with
          | StrokeRect _ _ x y w h => Some (x, y, w, h)
          | _ => None
          end)
       cmds.

(** The bounding box [(x, y, w, h)] of the corners of a label that
    project into view; none when no corner does. *)
Definition labelBox
  (viewportWidth viewportHeight imageWidth imageHeight
   yaw pitch zoom fov : R) (projectionType : ProjectionType)
  (label : PanoramaLabel) : option (R * R * R * R) :=
  match LabelRenderer.visibleCorners
          (LabelRenderer.projectedCorners viewportWidth viewportHeight
             imageWidth imageHeight yaw pitch zoom fov projectionType label)
  with
  | [] => None
  | c0 :: cs =>
      let xs := map pixel_x cs in
      let ys := map pixel_y cs in
      Some (Math.minOf (pixel_x c0) xs, Math.minOf (pixel_y c0) ys,
            Math.maxOf (pixel_x c0) xs - Math.minOf (pixel_x c0) xs,
            Math.maxOf (pixel_y c0) ys - Math.minOf (pixel_y c0) ys)
  end.

(** ** The projection table of the specification

    Written from the words of the specification, to be compared with the
    strategies above. *)

Module Table.

Definition radius (nx ny aspectRatio : R) : R :=
  sqrt ((nx * aspectRatio) * (nx * aspectRatio) + ny * ny).

(** Forward angle formula of the three radial projections. *)
Definition forwardAngle (type : ProjectionType) (r fov aspectRatio : R) : R :=
  match type with
  | STEREOGRAPHIC => 2 * atan (r / (2 * tan (fov / 4)))
  | EQUIDISTANT => r * (fov / 2) / sqrt (aspectRatio * aspectRatio + 1)
  | EQUISOLID => 2 * asin (Rmin (r / 2) 1)
  | RECTILINEAR => 0
  end.

(** Inverse radius formula of the three radial projections. *)
Definition inverseRadius (type : ProjectionType) (angle fov aspectRatio : R)
  : R :=
  match type with
  | STEREOGRAPHIC => 2 * tan (angle / 2) * 2 * tan (fov / 4)
  | EQUIDISTANT => angle * sqrt (aspectRatio * aspectRatio + 1) / (fov / 2)
  | EQUISOLID => 2 * sin (angle / 2)
  | RECTILINEAR => 0
  end.

Definition viewportToAngles (type : ProjectionType)
  (nx ny fov aspectRatio : R) : R * R :=
  match type with
  | RECTILINEAR =>
      (atan (nx * aspectRatio * tan (fov / 2)), atan (ny * tan (fov / 2)))
  | _ =>
      let r := radius nx ny aspectRatio in
      if Rlt_dec r 0.0001 then (0, 0)
      else
        let angle := forwardAngle type r fov aspectRatio in
        (angle * (nx * aspectRatio) / r, angle * ny / r)
  end.

Definition anglesToViewport (type : ProjectionType)
  (theta phi fov aspectRatio : R) : R * R :=
  match type with
  | RECTILINEAR =>
      (tan theta / (aspectRatio * tan (fov / 2)), tan phi / tan (fov / 2))
  | _ =>
      let angle := sqrt (theta * theta + phi * phi) in
      if Rlt_dec angle 0.0001 then (0, 0)
      else
        let r := inverseRadius type angle fov aspectRatio in
        (r * theta / angle / aspectRatio, r * phi / angle)
  end.

End Table.

(** * Properties *)

(** ** Numbers *)

Lemma ltb_true (a b : R) : ltb a b = true <-> a < b.
Proof. unfold ltb. destruct (Rlt_dec a b); split; intros; auto; discriminate. Qed.

Lemma ltb_false (a b : R) : ltb a b = false <-> b <= a.
Proof.
  unfold ltb. destruct (Rlt_dec a b); split; intros; auto; try discriminate; lra.
Qed.

Lemma gtb_true (a b : R) : gtb a b = true <-> a > b.
Proof. unfold gtb. rewrite ltb_true. lra. Qed.

Lemma gtb_false (a b : R) : gtb a b = false <-> a <= b.
Proof. unfold gtb. apply ltb_false. Qed.

Lemma PI_bounds : 3 < PI <= 4.
Proof.
  split; [| apply PI_4].
  pose proof PI2_3_2. lra.
Qed.

Lemma atan2_one (y : R) : Math.atan2 y 1 = atan y.
Proof.
  unfold Math.atan2. destruct (Rlt_dec 0 1) as [_ | H]; [| lra].
  f_equal. field.
Qed.

(** ** The angle wrap loops *)

Section Turns.

Local Ltac unfold_pi := unfold Math.PI in *.

Lemma subtractTurns_enough (n : nat) :
  forall angle, angle <= PI + 2 * PI * INR n ->
  exists a, subtractTurns (S n) angle = Some a /\ a <= PI
            /\ (angle <= PI -> a = angle) /\ (PI < angle -> - PI < a).
Proof.
  pose proof PI_bounds as Hpi.
  induction n as [| n IH]; intros angle Hle.
  - simpl in Hle. exists angle. simpl. unfold_pi.
    destruct (Rlt_dec PI angle); [lra |]. repeat split; auto; lra.
  - rewrite S_INR in Hle.
    change (subtractTurns (S (S n)) angle)
      with (if Rlt_dec Math.PI angle
            then subtractTurns (S n) (angle - 2 * Math.PI) else Some angle).
    unfold_pi. destruct (Rlt_dec PI angle) as [Hgt | Hngt].
    + destruct (IH (angle - 2 * PI)) as (a & Ha & Hle' & Hsame & Hlow);
        [lra |].
      exists a. repeat split; auto; lra.
    + exists angle. repeat split; auto; lra.
Qed.

Lemma addTurns_enough (n : nat) :
  forall angle, - PI - 2 * PI * INR n <= angle -> angle <= PI ->
  exists a, addTurns (S n) angle = Some a /\ - PI <= a <= PI
            /\ (- PI <= angle -> a = angle).
Proof.
  pose proof PI_bounds as Hpi.
  induction n as [| n IH]; intros angle Hge Hle.
  - simpl in Hge. exists angle. simpl. unfold_pi.
    destruct (Rlt_dec angle (- PI)); [lra |]. repeat split; auto; lra.
  - rewrite S_INR in Hge.
    change (addTurns (S (S n)) angle)
      with (if Rlt_dec angle (- Math.PI)
            then addTurns (S n) (angle + 2 * Math.PI) else Some angle).
    unfold_pi. destruct (Rlt_dec angle (- PI)) as [Hlt | Hnlt].
    + destruct (IH (angle + 2 * PI)) as (a & Ha & Hin & _); [lra | lra |].
      exists a. repeat split; auto; try lra.
    + exists angle. repeat split; auto; lra.
Qed.

Lemma subtractTurns_more (n m : nat) :
  forall angle a, subtractTurns n angle = Some a ->
  subtractTurns (n + m) angle = Some a.
Proof.
  induction n as [| n IH]; intros angle a H; [discriminate |].
  simpl in *. destruct (Rlt_dec Math.PI angle); auto.
Qed.

Lemma addTurns_more (n m : nat) :
  forall angle a, addTurns n angle = Some a ->
  addTurns (n + m) angle = Some a.
Proof.
  induction n as [| n IH]; intros angle a H; [discriminate |].
  simpl in *. destruct (Rlt_dec angle (- Math.PI)); auto.
Qed.

Lemma turnsBound_covers (angle : R) :
  exists n, turnsBound angle = S n /\ Rabs angle <= 2 * PI * INR n.
Proof.
  pose proof PI_bounds as Hpi.
  unfold turnsBound. unfold_pi.
  set (q := Rabs angle / (2 * PI)).
  exists (Z.to_nat (up q)). split; [reflexivity |].
  destruct (archimed q) as [Hup _].
  assert (Hq : 0 <= q).
  { unfold q. apply Rmult_le_pos; [apply Rabs_pos |].
    apply Rlt_le, Rinv_0_lt_compat. lra. }
  assert (Hpos : (0 <= up q)%Z).
  { apply le_IZR. lra. }
  rewrite INR_IZR_INZ, Z2Nat.id by exact Hpos.
  assert (Hmul : Rabs angle = q * (2 * PI)).
  { unfold q. field. lra. }
  rewrite Hmul. nra.
Qed.

End Turns.

(** The loops of [normalizeAngle] end within [turnsBound angle] tests
    each, and leave the angle in [[-PI, PI]]. *)
Lemma normalizeAngle_terminates (angle : R) :
  normalizeAngleFuel (turnsBound angle) angle = Some (normalizeAngle angle)
  /\ - PI <= normalizeAngle angle <= PI
  /\ (- PI <= angle <= PI -> normalizeAngle angle = angle).
Proof.
  pose proof PI_bounds as Hpi.
  destruct (turnsBound_covers angle) as (n & Hn & Hcov).
  assert (Habs : - Rabs angle <= angle <= Rabs angle).
  { split; [| apply Rle_abs].
    pose proof (Rle_abs (- angle)) as H. rewrite Rabs_Ropp in H. lra. }
  destruct (subtractTurns_enough n angle) as (a & Ha & Hle & Hsame & Hlow);
    [lra |].
  destruct (addTurns_enough n a) as (b & Hb & Hin & Hkeep); [| exact Hle |].
  { destruct (Rle_lt_dec angle PI) as [H | H].
    - rewrite (Hsame H). nra.
    - specialize (Hlow H). pose proof (pos_INR n). nra. }
  assert (Hrun : normalizeAngleFuel (turnsBound angle) angle = Some b).
  { unfold normalizeAngleFuel. rewrite Hn, Ha. exact Hb. }
  assert (Hval : normalizeAngle angle = b).
  { unfold normalizeAngle. rewrite Hrun. reflexivity. }
  rewrite Hval. repeat split; auto; lra.
Qed.

(** More fuel never changes the outcome of the loops. *)
Lemma normalizeAngleFuel_stable (fuel : nat) (angle a : R) :
  normalizeAngleFuel fuel angle = Some a -> normalizeAngle angle = a.
Proof.
  intros H.
  destruct (normalizeAngle_terminates angle) as (Hrun & _).
  unfold normalizeAngleFuel in *.
  destruct (subtractTurns fuel angle) as [a1 |] eqn:E1; [| discriminate].
  destruct (subtractTurns (turnsBound angle) angle) as [a2 |] eqn:E2;
    [| discriminate].
  pose proof (subtractTurns_more _ (turnsBound angle) _ _ E1) as F1.
  pose proof (subtractTurns_more _ fuel _ _ E2) as F2.
  rewrite (Nat.add_comm (turnsBound angle) fuel) in F2.
  rewrite F1 in F2. injection F2 as ->.
  pose proof (addTurns_more _ (turnsBound angle) _ _ H) as G1.
  pose proof (addTurns_more _ fuel _ _ Hrun) as G2.
  rewrite (Nat.add_comm (turnsBound angle) fuel) in G2.
  rewrite G1 in G2. injection G2 as ->. reflexivity.
Qed.

Lemma degrees_round_trip (v : R) : radToDeg (degToRad v) = v.
Proof.
  unfold radToDeg, degToRad, Math.PI. field. apply PI_neq0.
Qed.

(** Normalising a yaw that is already within half a turn changes nothing. *)
Lemma normalize_degrees_id (v : R) :
  -180 <= v <= 180 -> radToDeg (normalizeAngle (degToRad v)) = v.
Proof.
  intros Hv. pose proof PI_bounds as Hpi.
  destruct (normalizeAngle_terminates (degToRad v)) as (_ & _ & Hid).
  rewrite Hid; [apply degrees_round_trip |].
  unfold degToRad, Math.PI. nra.
Qed.

Lemma normalize_degrees_range (v : R) :
  -180 <= radToDeg (normalizeAngle (degToRad v)) <= 180.
Proof.
  pose proof PI_bounds as Hpi.
  destruct (normalizeAngle_terminates (degToRad v)) as (_ & Hin & _).
  set (a := normalizeAngle (degToRad v)) in *.
  unfold radToDeg, Math.PI.
  assert (H : a * (180 / PI) = 180 * (a / PI)) by (field; lra).
  rewrite H.
  assert (-1 <= a / PI <= 1).
  { split.
    - apply Rmult_le_reg_r with PI; [lra |].
      unfold Rdiv. rewrite Rmult_assoc, Rinv_l by lra. lra.
    - apply Rmult_le_reg_r with PI; [lra |].
      unfold Rdiv. rewrite Rmult_assoc, Rinv_l by lra. lra. }
  lra.
Qed.

Lemma clamp_range (v lo hi : R) : lo <= hi -> lo <= clamp v lo hi <= hi.
Proof.
  intros H. unfold clamp, Math.max, Math.min, Rmax, Rmin.
  repeat destruct Rle_dec; lra.
Qed.

Lemma clamp_id (v lo hi : R) : lo <= v <= hi -> clamp v lo hi = v.
Proof.
  intros H. unfold clamp, Math.max, Math.min, Rmax, Rmin.
  repeat destruct Rle_dec; lra.
Qed.

(** ** Drag velocity *)

(** C10.  For each of the four projection strategies and every base
    sensitivity [s], the drag velocity at the viewport centre is exactly
    [(s, s)].  A drag-move of [(dx, dy)] on a dragging renderer therefore
    gives, whatever the projection type, the yaw
    [yaw - dx * sensitivity] (then normalised) and the pitch
    [pitch - dy * sensitivity] (then clamped); when these stay within the
    angular bounds they are the new yaw and pitch themselves. *)
Theorem drag_velocity_uniform (type : ProjectionType) (s : R) :
  getDragVelocity (getProjectionStrategy type) 0 0 s = (s, s)
  /\ forall (r : Renderer) (dx dy : R),
       projectionType r = type ->
       isDragging (state r) = true ->
       let r' := handleMouseMove (movement dx dy) r in
       let yaw' := yaw (state r) - dx * sensitivity (config r) in
       let pitch' := pitch (state r) - dy * sensitivity (config r) in
       yaw (getState r') = radToDeg (normalizeAngle (degToRad yaw'))
       /\ pitch (getState r')
          = clamp pitch' CONSTRAINTS.MIN_PITCH CONSTRAINTS.MAX_PITCH
       /\ (-180 <= yaw' <= 180 -> yaw (getState r') = yaw')
       /\ (-90 <= pitch' <= 90 -> pitch (getState r') = pitch').
Proof.
  assert (Hcentre : forall t v,
             getDragVelocity (getProjectionStrategy t) 0 0 v = (v, v)).
  { intros t v. destruct t; cbn.
    - reflexivity.
    - unfold StereographicProjection.getDragVelocity, Math.sqrt, Math.cos.
      replace (0 * 0 + 0 * 0) with 0 by ring. rewrite sqrt_0.
      replace (0 * Math.PI / 4) with 0 by (unfold Rdiv; ring).
      rewrite cos_0. f_equal; ring.
    - unfold EquidistantProjection.getDragVelocity, Math.sqrt, Math.max.
      replace (0 * 0 + 0 * 0) with 0 by ring. rewrite sqrt_0.
      replace (1 - 0 * 0.15) with 1 by ring.
      rewrite Rmax_right by lra. f_equal; ring.
    - unfold EquisolidProjection.getDragVelocity, Math.sqrt, Math.max.
      replace (0 * 0 + 0 * 0) with 0 by ring. rewrite sqrt_0.
      replace (1 - 0 * 0.2) with 1 by ring.
      rewrite Rmax_right by lra. f_equal; ring. }
  split; [apply Hcentre |].
  intros r dx dy Htype Hdrag r' yaw' pitch'.
  assert (Hstate : state r'
    = mkViewState (radToDeg (normalizeAngle (degToRad yaw')))
        (clamp pitch' CONSTRAINTS.MIN_PITCH CONSTRAINTS.MAX_PITCH)
        (zoom (state r)) true).
  { subst r'. unfold handleMouseMove. rewrite Hdrag. cbn [negb movement
      data_dx data_dy]. rewrite Hcentre. unfold markDirty, scheduleRender.
    cbn. destruct (animationFrameId r); cbn; unfold set_yaw, set_pitch; cbn;
      rewrite Hdrag; reflexivity. }
  unfold getState. rewrite Hstate. cbn [yaw pitch].
  repeat split.
  - intros H. apply normalize_degrees_id. exact H.
  - intros H. apply clamp_id. unfold CONSTRAINTS.MIN_PITCH,
      CONSTRAINTS.MAX_PITCH. lra.
Qed.

Lemma drag_velocity_uniform_witness :
  let r := handleMouseDown (pointerAt 10 10)
             (construct 800 600 defaultConfig true) in
  yaw (getState (handleMouseMove (movement 20 (-10)) r)) = -10
  /\ pitch (getState (handleMouseMove (movement 20 (-10)) r)) = 5.
Proof.
  intros r.
  destruct (drag_velocity_uniform EQUIDISTANT 0.5) as [_ H].
  destruct (H r 20 (-10) eq_refl eq_refl) as (_ & _ & Hy & Hp).
  split.
  - rewrite Hy; cbn; lra.
  - assert (Hc : clamp 0 CONSTRAINTS.MIN_PITCH CONSTRAINTS.MAX_PITCH = 0).
    { apply clamp_id. unfold CONSTRAINTS.MIN_PITCH, CONSTRAINTS.MAX_PITCH.
      lra. }
    rewrite Hp; cbn; rewrite Hc; lra.
Defined.

(** ** The strategies against the projection table *)

Lemma quarter_of_half (fov : R) : fov / 2 / 2 = fov / 4.
Proof. field. Qed.

Lemma strategy_is_table_entry (type : ProjectionType)
  (a b fov aspectRatio : R) :
  viewportToAngles (getProjectionStrategy type) a b fov aspectRatio
  = Table.viewportToAngles type a b fov aspectRatio
  /\ anglesToViewport (getProjectionStrategy type) a b fov aspectRatio
     = Table.anglesToViewport type a b fov aspectRatio.
Proof.
  destruct type; cbn [getProjectionStrategy projectionStrategies
    viewportToAngles anglesToViewport
    RectilinearProjection.strategy StereographicProjection.strategy
    EquidistantProjection.strategy EquisolidProjection.strategy].
  - unfold RectilinearProjection.viewportToAngles,
      RectilinearProjection.anglesToViewport,
      Table.viewportToAngles, Table.anglesToViewport,
      Math.atan, Math.tan.
    rewrite atan2_one. split; reflexivity.
  - unfold StereographicProjection.viewportToAngles,
      StereographicProjection.anglesToViewport,
      Table.viewportToAngles, Table.anglesToViewport, Table.radius,
      Table.forwardAngle, Table.inverseRadius,
      Math.sqrt, Math.atan, Math.tan.
    rewrite quarter_of_half. split.
    + destruct (Rlt_dec _ _); [reflexivity |].
      f_equal; unfold Rdiv; ring.
    + destruct (Rlt_dec _ _); [reflexivity |].
      f_equal; unfold Rdiv; ring.
  - unfold EquidistantProjection.viewportToAngles,
      EquidistantProjection.anglesToViewport,
      Table.viewportToAngles, Table.anglesToViewport, Table.radius,
      Table.forwardAngle, Table.inverseRadius, Math.sqrt.
    split.
    + destruct (Rlt_dec _ _); [reflexivity |].
      f_equal; unfold Rdiv; ring.
    + destruct (Rlt_dec _ _); [reflexivity |].
      f_equal; unfold Rdiv; ring.
  - unfold EquisolidProjection.viewportToAngles,
      EquisolidProjection.anglesToViewport,
      Table.viewportToAngles, Table.anglesToViewport, Table.radius,
      Table.forwardAngle, Table.inverseRadius,
      Math.sqrt, Math.asin, Math.sin, Math.min.
    split.
    + destruct (Rlt_dec _ _); [reflexivity |].
      f_equal; unfold Rdiv; ring.
    + destruct (Rlt_dec _ _); [reflexivity |].
      f_equal; unfold Rdiv; ring.
Qed.

(** C3.  For each of the four projection types, [viewportToAngles] is the
    forward formula of the table (Rectilinear computed directly from
    [nx] and [ny]; the three radial types from the radius [r], with
    [(0, 0)] when [r < 1e-4] and otherwise [theta = angle * (nx * ar) / r],
    [phi = angle * ny / r]), and [anglesToViewport] is the inverse radius
    formula of the table. *)
Theorem strategies_follow_table (type : ProjectionType)
  (nx ny theta phi fov aspectRatio : R) :
  viewportToAngles (getProjectionStrategy type) nx ny fov aspectRatio
  = Table.viewportToAngles type nx ny fov aspectRatio
  /\ anglesToViewport (getProjectionStrategy type) theta phi fov aspectRatio
     = Table.anglesToViewport type theta phi fov aspectRatio.
Proof.
  split.
  - apply (strategy_is_table_entry type nx ny fov aspectRatio).
  - apply (strategy_is_table_entry type theta phi fov aspectRatio).
Qed.

(** ** Round trips through a strategy *)

Section RoundTrip.

Variables (nx ny fov aspectRatio : R).
Hypothesis fov_range : 0 < fov < PI.
Hypothesis aspect_pos : 0 < aspectRatio.

Let adjustedNx : R := nx * aspectRatio.
Let r : R := sqrt (adjustedNx * adjustedNx + ny * ny).

Lemma radius_square : r * r = adjustedNx * adjustedNx + ny * ny.
Proof. unfold r. apply sqrt_sqrt. nra. Qed.

(** The angle pair [g * (adjustedNx / r), g * (ny / r)] has length [g]. *)
Lemma decomposed_length (g : R) :
  0 < r -> 0 <= g ->
  sqrt (g * (adjustedNx / r) * (g * (adjustedNx / r))
        + g * (ny / r) * (g * (ny / r))) = g.
Proof.
  intros Hr Hg. pose proof radius_square as Hsq.
  replace (g * (adjustedNx / r) * (g * (adjustedNx / r))
           + g * (ny / r) * (g * (ny / r)))
    with (g * g * ((adjustedNx * adjustedNx + ny * ny) / (r * r)))
    by (field; lra).
  rewrite <- Hsq.
  replace (g * g * (r * r / (r * r))) with (g * g) by (field; lra).
  apply sqrt_square. exact Hg.
Qed.

Lemma tan_half_fov_pos : 0 < tan (fov / 2).
Proof. apply tan_gt_0; lra. Qed.

Lemma tan_quarter_fov_pos : 0 < tan (fov / 4).
Proof. pose proof PI_bounds. apply tan_gt_0; lra. Qed.

Lemma max_radius_pos : 1 < sqrt (aspectRatio * aspectRatio + 1).
Proof.
  rewrite <- sqrt_1 at 1. apply sqrt_lt_1_alt. nra.
Qed.

Lemma rectilinear_round_trip :
  roundTrip RECTILINEAR nx ny fov aspectRatio = (nx, ny).
Proof.
  pose proof tan_half_fov_pos as Ht.
  unfold roundTrip. cbn.
  unfold RectilinearProjection.anglesToViewport, Math.tan, Math.atan.
  rewrite atan2_one, !tan_atan. f_equal; field; lra.
Qed.

Lemma equidistant_round_trip :
  0.0001 <= r ->
  0.0001 <= r * (fov / 2) / sqrt (aspectRatio * aspectRatio + 1) ->
  roundTrip EQUIDISTANT nx ny fov aspectRatio = (nx, ny).
Proof.
  intros Hr Hangle. pose proof max_radius_pos as Hmax.
  unfold roundTrip. cbn.
  unfold EquidistantProjection.viewportToAngles, Math.sqrt.
  fold adjustedNx. fold r.
  destruct (Rlt_dec r 0.0001) as [H | _]; [lra |].
  set (maxRadius := sqrt (aspectRatio * aspectRatio + 1)) in *.
  set (angle := r * (fov / 2) / maxRadius) in *.
  unfold EquidistantProjection.anglesToViewport, Math.sqrt.
  rewrite decomposed_length by lra.
  destruct (Rlt_dec angle 0.0001) as [H | _]; [lra |].
  fold maxRadius.
  assert (Hback : angle * maxRadius / (fov / 2) = r).
  { unfold angle. field. lra. }
  rewrite Hback. unfold adjustedNx. f_equal; field; lra.
Qed.

Lemma asin_above (v : R) : 0 <= v <= 1 -> v <= asin v.
Proof.
  intros Hv. pose proof PI_bounds as Hpi.
  assert (Hs : sin (asin v) = v) by (apply sin_asin; lra).
  pose proof (asin_bound v) as Hb.
  destruct (Rlt_dec 0 (asin v)) as [Hpos | Hneg].
  - pose proof (sin_lt_x _ Hpos). lra.
  - assert (Hge : 0 <= sin (- asin v)) by (apply sin_ge_0; lra).
    rewrite sin_neg, Hs in Hge.
    assert (Hz : v = 0) by lra. rewrite Hz, asin_0. lra.
Qed.

Lemma equisolid_round_trip :
  0.0001 <= r <= 2 ->
  roundTrip EQUISOLID nx ny fov aspectRatio = (nx, ny).
Proof.
  intros Hr.
  unfold roundTrip. cbn.
  unfold EquisolidProjection.viewportToAngles, Math.sqrt, Math.asin,
    Math.min.
  fold adjustedNx. fold r.
  destruct (Rlt_dec r 0.0001) as [H | _]; [lra |].
  rewrite Rmin_left by lra.
  set (angle := 2 * asin (r / 2)).
  assert (Hangle : r <= angle).
  { unfold angle. pose proof (asin_above (r / 2)). lra. }
  unfold EquisolidProjection.anglesToViewport, Math.sqrt, Math.sin.
  rewrite decomposed_length by lra.
  destruct (Rlt_dec angle 0.0001) as [H | _]; [lra |].
  assert (Hback : 2 * sin (angle / 2) = r).
  { unfold angle. replace (2 * asin (r / 2) / 2) with (asin (r / 2)) by field.
    rewrite sin_asin by lra. field. }
  rewrite Hback. unfold adjustedNx. f_equal; field; lra.
Qed.

(** The Stereographic inverse radius is twice the radius the forward
    formula started from. *)
Lemma stereographic_round_trip_doubles :
  0.0001 <= r ->
  0.0001 <= 2 * atan (r / (2 * tan (fov / 4))) ->
  roundTrip STEREOGRAPHIC nx ny fov aspectRatio = (2 * nx, 2 * ny).
Proof.
  intros Hr Hangle. pose proof tan_quarter_fov_pos as Ht.
  unfold roundTrip. cbn.
  unfold StereographicProjection.viewportToAngles, Math.sqrt, Math.atan,
    Math.tan.
  fold adjustedNx. fold r. rewrite quarter_of_half.
  destruct (Rlt_dec r 0.0001) as [H | _]; [lra |].
  set (angle := 2 * atan (r / (2 * tan (fov / 4)))) in *.
  unfold StereographicProjection.anglesToViewport, Math.sqrt, Math.tan.
  rewrite decomposed_length by lra. rewrite quarter_of_half.
  destruct (Rlt_dec angle 0.0001) as [H | _]; [lra |].
  assert (Hback : 2 * tan (angle / 2) * (2 * tan (fov / 4)) = 2 * r).
  { unfold angle.
    replace (2 * atan (r / (2 * tan (fov / 4))) / 2)
      with (atan (r / (2 * tan (fov / 4)))) by field.
    rewrite tan_atan. field. lra. }
  rewrite Hback. unfold adjustedNx. f_equal; field; lra.
Qed.

End RoundTrip.

Lemma sqrt_of_square (v w : R) : 0 <= w -> v = w * w -> sqrt v = w.
Proof. intros Hw ->. apply sqrt_square. exact Hw. Qed.

Lemma radial_centre_forward (type : ProjectionType)
  (nx ny fov aspectRatio : R) :
  type <> RECTILINEAR ->
  Table.radius nx ny aspectRatio < 0.0001 ->
  viewportToAngles (getProjectionStrategy type) nx ny fov aspectRatio
  = (0, 0).
Proof.
  intros Htype Hr.
  destruct (strategy_is_table_entry type nx ny fov aspectRatio) as [-> _].
  destruct type; try contradiction; unfold Table.viewportToAngles;
    destruct (Rlt_dec _ _); auto; lra.
Qed.

Lemma radial_centre_inverse (type : ProjectionType)
  (theta phi fov aspectRatio : R) :
  type <> RECTILINEAR ->
  sqrt (theta * theta + phi * phi) < 0.0001 ->
  anglesToViewport (getProjectionStrategy type) theta phi fov aspectRatio
  = (0, 0).
Proof.
  intros Htype Hr.
  destruct (strategy_is_table_entry type theta phi fov aspectRatio)
    as [_ ->].
  destruct type; try contradiction; unfold Table.anglesToViewport;
    destruct (Rlt_dec _ _); auto; lra.
Qed.

Lemma rectilinear_centre (fov aspectRatio : R) :
  viewportToAngles (getProjectionStrategy RECTILINEAR) 0 0 fov aspectRatio
  = (0, 0)
  /\ anglesToViewport (getProjectionStrategy RECTILINEAR) 0 0 fov aspectRatio
     = (0, 0).
Proof.
  cbn. unfold RectilinearProjection.viewportToAngles,
    RectilinearProjection.anglesToViewport, Math.atan, Math.tan.
  rewrite atan2_one.
  replace (0 * aspectRatio * tan (fov / 2)) with 0 by ring.
  replace (0 * tan (fov / 2)) with 0 by ring.
  rewrite atan_0, tan_0. split; f_equal; unfold Rdiv; ring.
Qed.

(** C1, as the code has it by design.  For a field of view in [(0, PI)]
    and a positive aspect ratio, [anglesToViewport] after
    [viewportToAngles] gives back [(nx, ny)]: under Rectilinear at every
    point; under Equidistant when the radius and the angle computed from it
    are both at least [1e-4]; under Equisolid when the radius is between
    [1e-4] and [2].  The three radial projections return [(0, 0)] below the
    threshold in both directions; Rectilinear has no threshold and maps the
    exact centre to the exact centre. *)
Theorem round_trip_by_design (nx ny fov aspectRatio : R) :
  0 < fov < PI -> 0 < aspectRatio ->
  let r := Table.radius nx ny aspectRatio in
  roundTrip RECTILINEAR nx ny fov aspectRatio = (nx, ny)
  /\ (0.0001 <= r ->
      0.0001 <= Table.forwardAngle EQUIDISTANT r fov aspectRatio ->
      roundTrip EQUIDISTANT nx ny fov aspectRatio = (nx, ny))
  /\ (0.0001 <= r <= 2 ->
      roundTrip EQUISOLID nx ny fov aspectRatio = (nx, ny))
  /\ (forall type, type <> RECTILINEAR -> r < 0.0001 ->
      viewportToAngles (getProjectionStrategy type) nx ny fov aspectRatio
      = (0, 0))
  /\ (forall type theta phi, type <> RECTILINEAR ->
      sqrt (theta * theta + phi * phi) < 0.0001 ->
      anglesToViewport (getProjectionStrategy type) theta phi fov aspectRatio
      = (0, 0))
  /\ viewportToAngles (getProjectionStrategy RECTILINEAR) 0 0
       fov aspectRatio = (0, 0)
  /\ anglesToViewport (getProjectionStrategy RECTILINEAR) 0 0
       fov aspectRatio = (0, 0).
Proof.
  intros Hfov Har r.
  split; [apply rectilinear_round_trip; assumption |].
  split; [intros; apply equidistant_round_trip; assumption |].
  split; [intros; apply equisolid_round_trip; assumption |].
  split; [intros; apply radial_centre_forward; assumption |].
  split; [intros; apply radial_centre_inverse; assumption |].
  apply rectilinear_centre.
Qed.

Lemma round_trip_by_design_witness :
  roundTrip RECTILINEAR 0 1 1 0.75 = (0, 1)
  /\ roundTrip EQUIDISTANT 0 1 1 0.75 = (0, 1)
  /\ roundTrip EQUISOLID 0 1 1 0.75 = (0, 1).
Proof.
  assert (Hfov : 0 < 1 < PI) by (pose proof PI_bounds; lra).
  assert (Har : 0 < 0.75) by lra.
  assert (Hr : Table.radius 0 1 0.75 = 1).
  { unfold Table.radius. apply sqrt_of_square; lra. }
  assert (Hm : sqrt (0.75 * 0.75 + 1) = 1.25).
  { apply sqrt_of_square; lra. }
  destruct (round_trip_by_design 0 1 1 0.75 Hfov Har)
    as (Hrect & Hdist & Hsolid & _).
  rewrite Hr in Hdist, Hsolid. cbn [Table.forwardAngle] in Hdist.
  rewrite Hm in Hdist.
  split; [exact Hrect |].
  split; [apply Hdist; lra | apply Hsolid; lra].
Defined.

(** C1 as stated fails: under Equidistant, with field of view 1 and aspect
    ratio 3/4, the point [(0, 1e-4)] has radius [1e-4] but its angle
    [4e-5] is below the threshold of the inverse, which returns
    [(0, 0)]. *)
Lemma round_trip_lost_below_angle_threshold :
  0.0001 <= Table.radius 0 0.0001 0.75
  /\ 0 < 1 < PI
  /\ 0 < 0.75
  /\ roundTrip EQUIDISTANT 0 0.0001 1 0.75 = (0, 0)
  /\ roundTrip EQUIDISTANT 0 0.0001 1 0.75 <> (0, 0.0001).
Proof.
  assert (Hr : sqrt (0 * 0.75 * (0 * 0.75) + 0.0001 * 0.0001) = 0.0001).
  { apply sqrt_of_square; lra. }
  assert (Hm : sqrt (0.75 * 0.75 + 1) = 1.25).
  { apply sqrt_of_square; lra. }
  assert (Hforward :
    viewportToAngles (getProjectionStrategy EQUIDISTANT) 0 0.0001 1 0.75
    = (0, 0.00004)).
  { cbn. unfold EquidistantProjection.viewportToAngles, Math.sqrt.
    rewrite Hr, Hm. destruct (Rlt_dec _ _); [lra |]. f_equal; lra. }
  assert (Hback : roundTrip EQUIDISTANT 0 0.0001 1 0.75 = (0, 0)).
  { unfold roundTrip. rewrite Hforward. cbn.
    unfold EquidistantProjection.anglesToViewport, Math.sqrt.
    assert (Ha : sqrt (0 * 0 + 0.00004 * 0.00004) = 0.00004).
    { apply sqrt_of_square; lra. }
    rewrite Ha. destruct (Rlt_dec _ _); [reflexivity | lra]. }
  split; [unfold Table.radius; rewrite Hr; lra |].
  split; [pose proof PI_bounds; lra |].
  split; [lra |].
  split; [exact Hback |].
  rewrite Hback. intros H. injection H as H. lra.
Qed.

(** ** The camera state under input *)

Lemma state_markDirty (r : Renderer) : state (markDirty r) = state r.
Proof.
  unfold markDirty, scheduleRender. cbn.
  destruct (animationFrameId r); reflexivity.
Qed.

Lemma yaw_after_drag_move (r : Renderer) (dx dy : R) :
  isDragging (state r) = true ->
  yaw (state (handleMouseMove (movement dx dy) r))
  = radToDeg (normalizeAngle
      (degToRad (yaw (state r)
                 - dx * fst (getDragVelocity
                               (getProjectionStrategy (projectionType r))
                               0 0 (sensitivity (config r)))))).
Proof.
  intros Hdrag. unfold handleMouseMove. rewrite Hdrag.
  cbn [negb movement data_dx data_dy].
  rewrite state_markDirty. reflexivity.
Qed.

Lemma yaw_after_arrow_key (r : Renderer) (key : string) :
  enableKeyboard (config r) = true ->
  key = "ArrowLeft"%string \/ key = "ArrowRight"%string
  \/ key = "ArrowUp"%string \/ key = "ArrowDown"%string ->
  exists v,
    yaw (state (handleKeyDown (keyPress key) r))
    = radToDeg (normalizeAngle (degToRad v))
    /\ (key = "ArrowLeft"%string -> v = yaw (state r) - 5)
    /\ (key = "ArrowRight"%string -> v = yaw (state r) + 5).
Proof.
  intros Hkb Hkey. unfold handleKeyDown. rewrite Hkb.
  destruct Hkey as [-> | [-> | [-> | ->]]]; cbn;
    rewrite state_markDirty; cbn;
    eexists; (split; [reflexivity |]); split; intros H;
    try discriminate H; reflexivity.
Qed.

(** C2, as the code has it by design.  After a drag-move on a dragging
    renderer, and after a key-down of an arrow key with the keyboard
    enabled, the yaw reported by [getState] lies in the closed interval
    [[-180, 180]], whatever the yaw was before. *)
Theorem yaw_within_half_turn_after_input (r : Renderer) :
  (forall dx dy,
     isDragging (state r) = true ->
     -180 <= yaw (getState (handleInput mouse_move (movement dx dy) r))
          <= 180)
  /\ (forall key,
        enableKeyboard (config r) = true ->
        key = "ArrowLeft"%string \/ key = "ArrowRight"%string
        \/ key = "ArrowUp"%string \/ key = "ArrowDown"%string ->
        -180 <= yaw (getState (handleInput key_down (keyPress key) r))
             <= 180).
Proof.
  split.
  - intros dx dy Hdrag. cbn [handleInput getState yaw].
    rewrite yaw_after_drag_move by exact Hdrag.
    apply normalize_degrees_range.
  - intros key Hkb Hkey. cbn [handleInput getState yaw].
    destruct (yaw_after_arrow_key r key Hkb Hkey) as (v & -> & _).
    apply normalize_degrees_range.
Qed.

Lemma yaw_within_half_turn_after_input_witness :
  let r := handleMouseDown (pointerAt 10 10)
             (setState (mkPartial (Some 500) None None)
                (construct 800 600 defaultConfig true)) in
  -180 <= yaw (getState (handleInput mouse_move (movement 3 4) r)) <= 180
  /\ -180 <= yaw (getState
                    (handleInput key_down (keyPress "ArrowLeft") r)) <= 180.
Proof.
  intros r.
  destruct (yaw_within_half_turn_after_input r) as [Hmove Hkey].
  split.
  - apply Hmove. reflexivity.
  - apply Hkey; [reflexivity | left; reflexivity].
Defined.

(** [setState] stores the yaw it is given as it is. *)
Lemma setState_stores_yaw (r : Renderer) (v : R) :
  yaw (getState (setState (mkPartial (Some v) None None) r)) = v.
Proof.
  unfold setState. cbn [partial_yaw partial_pitch partial_zoom getState yaw].
  rewrite state_markDirty. reflexivity.
Qed.

(** C2 as stated fails at the upper end: from yaw 175, ArrowRight gives
    yaw 180, which the half-open interval excludes. *)
Lemma yaw_reaches_180 :
  let r := setState (mkPartial (Some 175) None None)
             (construct 800 600 defaultConfig true) in
  yaw (getState (handleInput key_down (keyPress "ArrowRight") r)) = 180
  /\ ~ (-180 <= yaw (getState
                       (handleInput key_down (keyPress "ArrowRight") r))
             < 180).
Proof.
  intros r.
  assert (H : yaw (getState
                     (handleInput key_down (keyPress "ArrowRight") r))
              = 180).
  { cbn [handleInput getState yaw].
    destruct (yaw_after_arrow_key r "ArrowRight" eq_refl)
      as (v & -> & _ & Hv); [right; left; reflexivity |].
    rewrite (Hv eq_refl).
    replace (yaw (state r) + 5) with 180.
    - apply normalize_degrees_id. lra.
    - subst r.
      pose proof (setState_stores_yaw
                    (construct 800 600 defaultConfig true) 175) as E.
      cbn [getState yaw] in E. rewrite E. lra. }
  split; [exact H |]. rewrite H. lra.
Qed.

(** ** Visibility in [projectToViewport] *)

Lemma outsideField_true (nx ny : R) :
  outsideField nx ny = true <-> Rabs nx > 1.2 \/ Rabs ny > 1.2.
Proof.
  unfold outsideField, Math.abs.
  rewrite orb_true_iff, !gtb_true. tauto.
Qed.

Lemma outsideMargin_true (x y width height : R) :
  outsideMargin x y width height = true
  <-> x < -100 \/ x > width + 100 \/ y < -100 \/ y > height + 100.
Proof.
  unfold outsideMargin.
  rewrite !orb_true_iff, !gtb_true, !ltb_true. tauto.
Qed.

Lemma projectToViewport_unfold
  (srcX srcY imageWidth imageHeight width height yaw pitch zoom fov : R)
  (type : ProjectionType) :
  let n := normalisedTarget srcX srcY imageWidth imageHeight width height
             yaw pitch fov type in
  let x := pixelTarget (fst n) zoom width in
  let y := pixelTarget (snd n) zoom height in
  projectToViewport srcX srcY imageWidth imageHeight width height
    yaw pitch zoom fov type
  = if outsideField (fst n) (snd n) then None
    else if outsideMargin x y width height then None
    else Some (mkPixel x y).
Proof.
  intros n x y. unfold projectToViewport.
  subst x y n. unfold normalisedTarget, pixelTarget.
  destruct (anglesToViewport _ _ _ _ _) as [nx ny]. reflexivity.
Qed.


(** ** A reference camera

    An Equidistant camera looking at the centre of a 2000 x 1000 panorama
    through a 400 x 300 viewport, with a field of view of a quarter turn:
    the projection is then affine. *)

Lemma sqrt_at_least_left (a b : R) :
  0 <= a -> a <= sqrt (a * a + b * b).
Proof.
  intros Ha. rewrite <- (sqrt_square a Ha) at 1.
  apply sqrt_le_1_alt. nra.
Qed.

Lemma sqrt_at_least_right (a b : R) :
  0 <= b -> b <= sqrt (a * a + b * b).
Proof.
  intros Hb. rewrite <- (sqrt_square b Hb) at 1.
  apply sqrt_le_1_alt. nra.
Qed.

Lemma equidistant_inverse_linear (theta phi fov aspectRatio : R) :
  0 < fov -> 0 < aspectRatio ->
  (theta = 0 /\ phi = 0) \/ 0.0001 <= sqrt (theta * theta + phi * phi) ->
  EquidistantProjection.anglesToViewport theta phi fov aspectRatio
  = (theta * sqrt (aspectRatio * aspectRatio + 1) / (fov / 2) / aspectRatio,
     phi * sqrt (aspectRatio * aspectRatio + 1) / (fov / 2)).
Proof.
  intros Hfov Har Hcase.
  unfold EquidistantProjection.anglesToViewport, Math.sqrt.
  destruct (Rlt_dec _ _) as [Hlt | Hge].
  - destruct Hcase as [[-> ->] | H]; [| lra].
    f_equal; unfold Rdiv; ring.
  - set (angle := sqrt (theta * theta + phi * phi)) in *.
    f_equal; field; lra.
Qed.

Lemma reference_target (srcX srcY : R) :
  0 <= srcX <= 2000 ->
  (srcX = 1000 /\ srcY = 500) \/ 1000.1 <= srcX \/ 500.1 <= srcY ->
  normalisedTarget srcX srcY 2000 1000 400 300 0 0 (PI / 2) EQUIDISTANT
  = ((srcX - 1000) / 200, (srcY - 500) / 150).
Proof.
  intros Hx Hcase. pose proof PI_bounds as Hpi.
  unfold normalisedTarget, Math.PI.
  set (theta := srcX / 2000 * 2 * PI - PI - 0).
  set (phi := srcY / 1000 * PI - PI / 2 - 0).
  assert (Htheta : theta = PI * ((srcX - 1000) / 1000))
    by (unfold theta; field).
  assert (Hphi : phi = PI * ((srcY - 500) / 1000)) by (unfold phi; field).
  destruct (normalizeAngle_terminates theta) as (_ & _ & Hid).
  rewrite Hid by (rewrite Htheta; nra).
  cbn [getProjectionStrategy projectionStrategies anglesToViewport
       EquidistantProjection.strategy].
  assert (Hm : sqrt (400 / 300 * (400 / 300) + 1) = 5 / 3).
  { apply sqrt_of_square; lra. }
  rewrite equidistant_inverse_linear; [| lra | lra |].
  - rewrite Hm, Htheta, Hphi. f_equal; field; lra.
  - destruct Hcase as [[Hcx Hcy] | [Hfar | Hfar]].
    + left. rewrite Htheta, Hphi, Hcx, Hcy. split; lra.
    + right. apply Rle_trans with theta;
        [rewrite Htheta; nra | apply sqrt_at_least_left; rewrite Htheta; nra].
    + right. apply Rle_trans with phi;
        [rewrite Hphi; nra | apply sqrt_at_least_right; rewrite Hphi; nra].
Qed.

Lemma reference_pixel (srcX srcY zoom : R) :
  0 <= srcX <= 2000 ->
  (srcX = 1000 /\ srcY = 500) \/ 1000.1 <= srcX \/ 500.1 <= srcY ->
  let x := 200 + (srcX - 1000) * zoom in
  let y := 150 + (srcY - 500) * zoom in
  projectToViewport srcX srcY 2000 1000 400 300 0 0 zoom (PI / 2) EQUIDISTANT
  = if outsideField ((srcX - 1000) / 200) ((srcY - 500) / 150) then None
    else if outsideMargin x y 400 300 then None
    else Some (mkPixel x y).
Proof.
  intros Hx Hcase x y.
  pose proof (projectToViewport_unfold srcX srcY 2000 1000 400 300 0 0
                zoom (PI / 2) EQUIDISTANT) as Hrun.
  cbv zeta in Hrun. rewrite reference_target in Hrun by assumption.
  cbn [fst snd] in Hrun. unfold pixelTarget in Hrun.
  replace (((srcX - 1000) / 200 * zoom + 1) / 2 * 400) with x in Hrun
    by (unfold x; field).
  replace (((srcY - 500) / 150 * zoom + 1) / 2 * 300) with y in Hrun
    by (unfold y; field).
  exact Hrun.
Qed.

Lemma outsideField_false (nx ny : R) :
  -1.2 <= nx <= 1.2 -> -1.2 <= ny <= 1.2 -> outsideField nx ny = false.
Proof.
  intros Hx Hy. destruct (outsideField nx ny) eqn:E; [| reflexivity].
  apply outsideField_true in E. exfalso.
  destruct E as [E | E]; unfold Rabs in E; destruct Rcase_abs; lra.
Qed.

Lemma outsideMargin_false (x y width height : R) :
  -100 <= x <= width + 100 -> -100 <= y <= height + 100 ->
  outsideMargin x y width height = false.
Proof.
  intros Hx Hy. destruct (outsideMargin x y width height) eqn:E;
    [| reflexivity].
  apply outsideMargin_true in E. lra.
Qed.

(** Source points near the centre of the panorama are visible. *)
Lemma reference_visible (srcX srcY : R) :
  (srcX = 1000 /\ srcY = 500) \/ 1000.1 <= srcX \/ 500.1 <= srcY ->
  760 <= srcX <= 1240 -> 320 <= srcY <= 680 ->
  projectToViewport srcX srcY 2000 1000 400 300 0 0 1 (PI / 2) EQUIDISTANT
  = Some (mkPixel (srcX - 800) (srcY - 350)).
Proof.
  intros Hcase Hx Hy.
  rewrite reference_pixel by (auto; lra). cbv zeta.
  rewrite outsideField_false by lra.
  rewrite outsideMargin_false by lra.
  f_equal. f_equal; lra.
Qed.


(** Either test can reject alone: at source column 1300 only the
    angular test triggers; at column 1200 with zoom 3 only the pixel
    test does. *)
Lemma visibility_tests_independent :
  (projectToViewport 1300 500.5 2000 1000 400 300 0 0 1 (PI / 2) EQUIDISTANT
   = None
   /\ outsideField ((1300 - 1000) / 200) ((500.5 - 500) / 150) = true
   /\ outsideMargin (200 + (1300 - 1000) * 1) (150 + (500.5 - 500) * 1)
        400 300 = false)
  /\ (projectToViewport 1200 500.5 2000 1000 400 300 0 0 3 (PI / 2)
        EQUIDISTANT = None
      /\ outsideField ((1200 - 1000) / 200) ((500.5 - 500) / 150) = false
      /\ outsideMargin (200 + (1200 - 1000) * 3) (150 + (500.5 - 500) * 3)
           400 300 = true).
Proof.
  assert (F1 : outsideField ((1300 - 1000) / 200) ((500.5 - 500) / 150)
               = true).
  { apply outsideField_true. left. unfold Rabs. destruct Rcase_abs; lra. }
  assert (M1 : outsideMargin (200 + (1300 - 1000) * 1)
                 (150 + (500.5 - 500) * 1) 400 300 = false).
  { apply outsideMargin_false; lra. }
  assert (F2 : outsideField ((1200 - 1000) / 200) ((500.5 - 500) / 150)
               = false).
  { apply outsideField_false; lra. }
  assert (M2 : outsideMargin (200 + (1200 - 1000) * 3)
                 (150 + (500.5 - 500) * 3) 400 300 = true).
  { apply outsideMargin_true. right. left. lra. }
  split; (split; [| split; assumption]).
  - rewrite reference_pixel by lra. cbv zeta. rewrite F1. reflexivity.
  - rewrite reference_pixel by lra. cbv zeta. rewrite F2, M2. reflexivity.
Qed.

(** ** The label overlay *)

Lemma minOf_least (rest : list R) :
  forall x0, least (Math.minOf x0 rest) (x0 :: rest).
Proof.
  unfold least, Math.minOf.
  induction rest as [| a rest IH]; intros x0; cbn [fold_left].
  - split; [left; reflexivity |]. constructor; [lra | constructor].
  - destruct (IH (Rmin x0 a)) as [Hin Hall].
    inversion Hall as [| ? ? Hhead Htail]; subst.
    pose proof (Rmin_l x0 a). pose proof (Rmin_r x0 a).
    split.
    + destruct Hin as [Hin | Hin].
      * rewrite <- Hin. unfold Rmin. destruct Rle_dec;
          [left; reflexivity | right; left; reflexivity].
      * right; right; exact Hin.
    + constructor; [lra |]. constructor; [lra | exact Htail].
Qed.

Lemma maxOf_greatest (rest : list R) :
  forall x0, greatest (Math.maxOf x0 rest) (x0 :: rest).
Proof.
  unfold greatest, Math.maxOf.
  induction rest as [| a rest IH]; intros x0; cbn [fold_left].
  - split; [left; reflexivity |]. constructor; [lra | constructor].
  - destruct (IH (Rmax x0 a)) as [Hin Hall].
    inversion Hall as [| ? ? Hhead Htail]; subst.
    pose proof (Rmax_l x0 a). pose proof (Rmax_r x0 a).
    split.
    + destruct Hin as [Hin | Hin].
      * rewrite <- Hin. unfold Rmax. destruct Rle_dec;
          [right; left; reflexivity | left; reflexivity].
      * right; right; exact Hin.
    + constructor; [lra |]. constructor; [lra | exact Htail].
Qed.

Lemma visibleCorners_nil (projected : list (option PixelCoord)) :
  LabelRenderer.visibleCorners projected = []
  <-> Forall (fun c => c = None) projected.
Proof.
  unfold LabelRenderer.visibleCorners.
  induction projected as [| c projected IH]; cbn.
  - split; [constructor | reflexivity].
  - destruct c as [p |]; cbn.
    + split; [discriminate |]. intros H. inversion H. discriminate.
    + rewrite IH. split; [constructor; auto |].
      intros H. inversion H. assumption.
Qed.

Lemma drawLabel_nil (label : PanoramaLabel)
  (projected : list (option PixelCoord)) :
  LabelRenderer.drawLabel label projected = []
  <-> LabelRenderer.visibleCorners projected = [].
Proof.
  unfold LabelRenderer.drawLabel.
  destruct (LabelRenderer.visibleCorners projected); cbn.
  - tauto.
  - split; discriminate.
Qed.

(** C7.  The label renderer projects exactly the four corners
    [(x, y)], [(x + w, y)], [(x, y + h)], [(x + w, y + h)] of a label; it
    draws nothing for the label exactly when all four are not visible;
    otherwise the rectangle it fills and strokes is the bounding box of the
    visible corners only: from the least to the greatest of their [x], and
    of their [y]. *)
Theorem label_drawn_as_visible_bounding_box
  (viewportWidth viewportHeight imageWidth imageHeight
   yaw pitch zoom fov : R) (type : ProjectionType) (label : PanoramaLabel) :
  let project := fun cx cy =>
    projectToViewport cx cy imageWidth imageHeight
      viewportWidth viewportHeight yaw pitch zoom fov type in
  let projected :=
    LabelRenderer.projectedCorners viewportWidth viewportHeight
      imageWidth imageHeight yaw pitch zoom fov type label in
  let visible := LabelRenderer.visibleCorners projected in
  let commands :=
    LabelRenderer.renderLabel viewportWidth viewportHeight
      imageWidth imageHeight yaw pitch zoom fov type label in
  projected
  = [ project (label_x label) (label_y label);
      project (label_x label + label_w label) (label_y label);
      project (label_x label) (label_y label + label_h label);
      project (label_x label + label_w label)
        (label_y label + label_h label) ]
  /\ (commands = [] <-> Forall (fun c => c = None) projected)
  /\ (forall p, In p visible <-> In (Some p) projected)
  /\ (visible <> [] ->
      exists minX maxX minY maxY rest,
        least minX (map pixel_x visible)
        /\ greatest maxX (map pixel_x visible)
        /\ least minY (map pixel_y visible)
        /\ greatest maxY (map pixel_y visible)
        /\ commands
           = FillRect LabelRenderer.fillColor
               minX minY (maxX - minX) (maxY - minY)
             :: StrokeRect LabelRenderer.strokeColor 2
                  minX minY (maxX - minX) (maxY - minY)
             :: rest).
Proof.
  intros project projected visible commands.
  split; [reflexivity |].
  split.
  { subst commands. unfold LabelRenderer.renderLabel. fold projected.
    rewrite drawLabel_nil. apply visibleCorners_nil. }
  split.
  { intros p. subst visible. unfold LabelRenderer.visibleCorners.
    rewrite <- !list_elem_of_In, list_elem_of_omap. split.
    - intros (c & Hc & ->). exact Hc.
    - intros Hp. exists (Some p). split; [exact Hp | reflexivity]. }
  intros Hvis. subst commands. unfold LabelRenderer.renderLabel.
  fold projected. unfold LabelRenderer.drawLabel. fold visible.
  destruct visible as [| c0 cs] eqn:E; [contradiction |].
  cbn [map].
  eexists _, _, _, _, _.
  split; [apply minOf_least |].
  split; [apply maxOf_greatest |].
  split; [apply minOf_least |].
  split; [apply maxOf_greatest |].
  cbn [app]. reflexivity.
Qed.

(** A label at the centre of the panorama, seen by the reference camera:
    its corners land at [(200, 150)] and [w], [h] further. *)
Lemma reference_label_corners (id : string) (w h : R)
  (title : option string) :
  0.1 <= w <= 240 -> 0.1 <= h <= 180 ->
  LabelRenderer.projectedCorners 400 300 2000 1000 0 0 1 (PI / 2)
    EQUIDISTANT (mkLabel id 1000 500 w h title)
  = [ Some (mkPixel 200 150); Some (mkPixel (200 + w) 150);
      Some (mkPixel 200 (150 + h)); Some (mkPixel (200 + w) (150 + h)) ].
Proof.
  intros Hw Hh.
  unfold LabelRenderer.projectedCorners, LabelRenderer.corners.
  cbn [map fst snd label_x label_y label_w label_h].
  rewrite !reference_visible by lra.
  repeat (f_equal; try lra).
Qed.

Lemma reference_label_drawn (id : string) (w h : R)
  (title : option string) :
  0.1 <= w <= 240 -> 0.1 <= h <= 180 ->
  LabelRenderer.renderLabel 400 300 2000 1000 0 0 1 (PI / 2)
    EQUIDISTANT (mkLabel id 1000 500 w h title)
  = [ FillRect LabelRenderer.fillColor 200 150 w h;
      StrokeRect LabelRenderer.strokeColor 2 200 150 w h ]
    ++ (if truthy title && gtb w 50 && gtb h 20
        then [ FillText LabelRenderer.textColor LabelRenderer.font
                 LabelRenderer.textAlign LabelRenderer.textBaseline
                 (default EmptyString title) (200 + w / 2) (150 + h / 2) ]
        else []).
Proof.
  intros Hw Hh. unfold LabelRenderer.renderLabel.
  rewrite reference_label_corners by assumption.
  unfold LabelRenderer.drawLabel, LabelRenderer.visibleCorners.
  cbn [omap list_omap option_bind option_ret mbind mret map pixel_x pixel_y
       label_title].
  assert (HminX : Math.minOf 200 [200 + w; 200; 200 + w] = 200).
  { unfold Math.minOf; cbn [fold_left].
    rewrite (Rmin_left 200 (200 + w)) by lra.
    rewrite (Rmin_left 200 200) by lra. apply Rmin_left; lra. }
  assert (HmaxX : Math.maxOf 200 [200 + w; 200; 200 + w] = 200 + w).
  { unfold Math.maxOf; cbn [fold_left].
    rewrite (Rmax_right 200 (200 + w)) by lra.
    rewrite (Rmax_left (200 + w) 200) by lra. apply Rmax_left; lra. }
  assert (HminY : Math.minOf 150 [150; 150 + h; 150 + h] = 150).
  { unfold Math.minOf; cbn [fold_left].
    rewrite (Rmin_left 150 150) by lra.
    rewrite (Rmin_left 150 (150 + h)) by lra. apply Rmin_left; lra. }
  assert (HmaxY : Math.maxOf 150 [150; 150 + h; 150 + h] = 150 + h).
  { unfold Math.maxOf; cbn [fold_left].
    rewrite (Rmax_left 150 150) by lra.
    rewrite (Rmax_right 150 (150 + h)) by lra. apply Rmax_left; lra. }
  rewrite HminX, HmaxX, HminY, HmaxY.
  replace (200 + w - 200) with w by lra.
  replace (150 + h - 150) with h by lra.
  reflexivity.
Qed.

Lemma label_drawn_as_visible_bounding_box_witness :
  exists rest,
    LabelRenderer.renderLabel 400 300 2000 1000 0 0 1 (PI / 2) EQUIDISTANT
      (mkLabel "door" 1000 500 100 40 (Some "Door"%string))
    = FillRect LabelRenderer.fillColor 200 150 100 40
      :: StrokeRect LabelRenderer.strokeColor 2 200 150 100 40 :: rest.
Proof.
  pose (label := mkLabel "door" 1000 500 100 40 (Some "Door"%string)).
  assert (Hw : 0.1 <= 100 <= 240) by lra.
  assert (Hh : 0.1 <= 40 <= 180) by lra.
  pose proof (reference_label_corners "door" 100 40 (Some "Door"%string)
                Hw Hh) as Hcorners.
  destruct (label_drawn_as_visible_bounding_box 400 300 2000 1000 0 0 1
              (PI / 2) EQUIDISTANT label) as (_ & _ & _ & Hbox).
  cbv zeta in Hbox. unfold label in Hbox. rewrite Hcorners in Hbox.
  destruct Hbox as (minX & maxX & minY & maxY & rest & HminX & HmaxX
                    & HminY & HmaxY & Hcmd); [discriminate |].
  exists rest. rewrite Hcmd.
  unfold LabelRenderer.visibleCorners in *.
  cbn [omap list_omap option_bind option_ret mbind mret map pixel_x pixel_y]
    in *.
  assert (EminX : minX = 200).
  { destruct HminX as [Hin Hall]. inversion Hall; subst.
    cbn in Hin. destruct Hin as [H | [H | [H | [H | []]]]]; lra. }
  assert (EmaxX : maxX = 200 + 100).
  { destruct HmaxX as [Hin Hall]. inversion Hall as [| ? ? _ Hall2]; subst.
    inversion Hall2; subst.
    cbn in Hin. destruct Hin as [H | [H | [H | [H | []]]]]; lra. }
  assert (EminY : minY = 150).
  { destruct HminY as [Hin Hall]. inversion Hall; subst.
    cbn in Hin. destruct Hin as [H | [H | [H | [H | []]]]]; lra. }
  assert (EmaxY : maxY = 150 + 40).
  { destruct HmaxY as [Hin Hall]. inversion Hall as [| ? ? _ Hall2]; subst.
    inversion Hall2 as [| ? ? _ Hall3]; subst. inversion Hall3; subst.
    cbn in Hin. destruct Hin as [H | [H | [H | [H | []]]]]; lra. }
  rewrite EminX, EmaxX, EminY, EmaxY.
  replace (200 + 100 - 200) with 100 by lra.
  replace (150 + 40 - 150) with 40 by lra.
  reflexivity.
Defined.

(** The title is the only text a label draws. *)
Lemma drawLabel_text (label : PanoramaLabel)
  (projected : list (option PixelCoord)) (c0 : PixelCoord)
  (cs : list PixelCoord) :
  LabelRenderer.visibleCorners projected = c0 :: cs ->
  let rectX := Math.minOf (pixel_x c0) (map pixel_x cs) in
  let rectY := Math.minOf (pixel_y c0) (map pixel_y cs) in
  let rectW := Math.maxOf (pixel_x c0) (map pixel_x cs) - rectX in
  let rectH := Math.maxOf (pixel_y c0) (map pixel_y cs) - rectY in
  forall style fnt align baseline text x y,
    In (FillText style fnt align baseline text x y)
       (LabelRenderer.drawLabel label projected)
    <-> (truthy (label_title label) = true /\ rectW > 50 /\ rectH > 20)
        /\ style = LabelRenderer.textColor /\ fnt = LabelRenderer.font
        /\ align = LabelRenderer.textAlign
        /\ baseline = LabelRenderer.textBaseline
        /\ label_title label = Some text
        /\ x = rectX + rectW / 2 /\ y = rectY + rectH / 2.
Proof.
  intros Hvis rectX rectY rectW rectH style fnt align baseline text x y.
  unfold LabelRenderer.drawLabel. rewrite Hvis.
  fold rectX rectY. fold rectW rectH.
  pose proof (gtb_true rectW 50) as Hw.
  pose proof (gtb_true rectH 20) as Hh.
  destruct (truthy (label_title label)) eqn:Et;
    destruct (gtb rectW 50); destruct (gtb rectH 20); cbn;
    try (split;
         [ intros [H | [H | H]]; try discriminate H; contradiction
         | intros [(H1 & H2 & H3) _];
           first [ discriminate H1
                 | apply Hw in H2; discriminate H2
                 | apply Hh in H3; discriminate H3 ] ]).
  destruct (label_title label) as [t |]; [| discriminate Et]. cbn.
  split.
  - intros [H | [H | [H | []]]]; try discriminate H.
    injection H as <- <- <- <- <- <- <-.
    repeat split; try reflexivity; [apply Hw | apply Hh]; reflexivity.
  - intros (_ & -> & -> & -> & -> & Ht & -> & ->). injection Ht as ->.
    right; right; left; reflexivity.
Qed.

(** C8, as the code has it by design.  For a label that is drawn, the
    title text is drawn exactly when the label has a non-empty title and
    its bounding box is strictly more than 50 wide and strictly more than
    20 high; the text is then centred in the box. *)
Theorem title_drawn_when_box_exceeds_50_by_20
  (viewportWidth viewportHeight imageWidth imageHeight
   yaw pitch zoom fov : R) (type : ProjectionType) (label : PanoramaLabel)
  (c0 : PixelCoord) (cs : list PixelCoord) :
  LabelRenderer.visibleCorners
    (LabelRenderer.projectedCorners viewportWidth viewportHeight
       imageWidth imageHeight yaw pitch zoom fov type label) = c0 :: cs ->
  let commands :=
    LabelRenderer.renderLabel viewportWidth viewportHeight
      imageWidth imageHeight yaw pitch zoom fov type label in
  let rectX := Math.minOf (pixel_x c0) (map pixel_x cs) in
  let rectY := Math.minOf (pixel_y c0) (map pixel_y cs) in
  let rectW := Math.maxOf (pixel_x c0) (map pixel_x cs) - rectX in
  let rectH := Math.maxOf (pixel_y c0) (map pixel_y cs) - rectY in
  ((exists style fnt align baseline text x y,
      In (FillText style fnt align baseline text x y) commands)
   <-> (exists text, label_title label = Some text /\ text <> EmptyString)
       /\ rectW > 50 /\ rectH > 20)
  /\ (forall style fnt align baseline text x y,
        In (FillText style fnt align baseline text x y) commands ->
        label_title label = Some text
        /\ align = "center"%string /\ baseline = "middle"%string
        /\ x = rectX + rectW / 2 /\ y = rectY + rectH / 2).
Proof.
  intros Hvis commands rectX rectY rectW rectH.
  pose proof (drawLabel_text label _ c0 cs Hvis) as Htext.
  cbv zeta in Htext. fold rectX rectY in Htext. fold rectW rectH in Htext.
  assert (Htruthy : truthy (label_title label) = true
                    <-> exists text, label_title label = Some text
                                     /\ text <> EmptyString).
  { unfold truthy. destruct (label_title label) as [t |].
    - rewrite negb_true_iff. split.
      + intros H. exists t. split; [reflexivity |].
        intros ->. discriminate H.
      + intros (t' & Ht & Hne). injection Ht as <-.
        destruct (String.eqb_spec t EmptyString); [contradiction | auto].
    - split; [discriminate | intros (t' & Ht & _); discriminate Ht]. }
  split.
  - split.
    + intros (style & fnt & align & baseline & text & x & y & Hin).
      apply Htext in Hin. destruct Hin as ((Ht & Hw & Hh) & _).
      split; [apply Htruthy; exact Ht | split; assumption].
    + intros (Ht & Hw & Hh). pose proof Ht as (text & Etext & _).
      exists LabelRenderer.textColor, LabelRenderer.font,
        LabelRenderer.textAlign, LabelRenderer.textBaseline, text,
        (rectX + rectW / 2), (rectY + rectH / 2).
      apply Htext. repeat split; auto. apply Htruthy. exact Ht.
  - intros style fnt align baseline text x y Hin. apply Htext in Hin.
    destruct Hin as (_ & _ & _ & Ha & Hb & Ht & Hx & Hy).
    rewrite Ha, Hb. auto.
Qed.

Lemma title_drawn_when_box_exceeds_50_by_20_witness :
  In (FillText LabelRenderer.textColor LabelRenderer.font
        "center" "middle" "Door" 250 170)
     (LabelRenderer.renderLabel 400 300 2000 1000 0 0 1 (PI / 2) EQUIDISTANT
        (mkLabel "door" 1000 500 100 40 (Some "Door"%string))).
Proof.
  pose (label := mkLabel "door" 1000 500 100 40 (Some "Door"%string)).
  assert (Hw : 0.1 <= 100 <= 240) by lra.
  assert (Hh : 0.1 <= 40 <= 180) by lra.
  assert (Hvis :
    LabelRenderer.visibleCorners
      (LabelRenderer.projectedCorners 400 300 2000 1000 0 0 1 (PI / 2)
         EQUIDISTANT label)
    = mkPixel 200 150
      :: [mkPixel (200 + 100) 150; mkPixel 200 (150 + 40);
          mkPixel (200 + 100) (150 + 40)]).
  { unfold label. rewrite reference_label_corners by assumption.
    reflexivity. }
  destruct (title_drawn_when_box_exceeds_50_by_20 400 300 2000 1000 0 0 1
              (PI / 2) EQUIDISTANT label _ _ Hvis) as [_ Hplace].
  fold label.
  pose proof (reference_label_drawn "door" 100 40 (Some "Door"%string)
                Hw Hh) as Hdrawn.
  fold label in Hdrawn.
  assert (Hin : In (FillText LabelRenderer.textColor LabelRenderer.font
                      "center" "middle" "Door"
                      (200 + 100 / 2) (150 + 40 / 2))
                   (LabelRenderer.renderLabel 400 300 2000 1000 0 0 1
                      (PI / 2) EQUIDISTANT label)).
  { rewrite Hdrawn.
    assert (G1 : gtb 100 50 = true) by (apply gtb_true; lra).
    assert (G2 : gtb 40 20 = true) by (apply gtb_true; lra).
    rewrite G1, G2. cbn. right; right; left; reflexivity. }
  destruct (Hplace _ _ _ _ _ _ _ Hin) as (_ & _ & _).
  replace 250 with (200 + 100 / 2) by lra.
  replace 170 with (150 + 40 / 2) by lra.
  exact Hin.
Defined.

(** C8 as stated fails at the boundary: seen by the reference camera, a
    titled label 50 wide and 20 high has a bounding box of exactly
    50 x 20, and is drawn as a bare rectangle. *)
Lemma title_omitted_at_50_by_20 :
  LabelRenderer.render [mkLabel "door" 1000 500 50 20 (Some "Door"%string)]
    400 300 2000 1000 0 0 1 (PI / 2) EQUIDISTANT
  = [ FillRect LabelRenderer.fillColor 200 150 50 20;
      StrokeRect LabelRenderer.strokeColor 2 200 150 50 20 ]
  /\ 50 >= 50 /\ 20 >= 20.
Proof.
  split; [| lra].
  unfold LabelRenderer.render. cbn [flat_map].
  rewrite reference_label_drawn by lra.
  assert (G : gtb 50 50 = false) by (apply gtb_false; lra).
  rewrite G. cbn. reflexivity.
Qed.

(** ** The rasterizer *)

Lemma floor_bounds (v : R) :
  IZR (Math.floor v) <= v < IZR (Math.floor v) + 1.
Proof.
  unfold Math.floor. destruct (base_Int_part v) as [Hle Hgt]. lra.
Qed.

Lemma wrappedSrcX_modulo (srcX imageWidth : Z) :
  (0 < imageWidth)%Z ->
  wrappedSrcX srcX imageWidth = (srcX mod imageWidth)%Z.
Proof.
  intros Hw. unfold wrappedSrcX.
  pose proof (Z.rem_bound_abs srcX imageWidth ltac:(lia)) as Habs.
  pose proof (Z.rem_mod_eq_0 srcX imageWidth ltac:(lia)) as Hzero.
  assert (Hnn : (0 <= Z.rem srcX imageWidth + imageWidth)%Z) by lia.
  rewrite Z.rem_mod_nonneg by lia.
  rewrite <- (Z.mod_add srcX 1 imageWidth) by lia.
  rewrite Z.mul_1_l.
  assert (Hcong : (Z.rem srcX imageWidth mod imageWidth
                   = srcX mod imageWidth)%Z).
  { pose proof (Z.quot_rem' srcX imageWidth) as Hq.
    rewrite Hq at 2.
    rewrite Z.add_comm, Z.mul_comm, Z.mod_add by lia. reflexivity. }
  rewrite <- (Zplus_mod_idemp_l (Z.rem srcX imageWidth)).
  rewrite Hcong. rewrite Zplus_mod_idemp_l. reflexivity.
Qed.

Lemma wrappedSrcX_range (srcX imageWidth : Z) :
  (0 < imageWidth)%Z ->
  (0 <= wrappedSrcX srcX imageWidth < imageWidth)%Z.
Proof.
  intros Hw. rewrite wrappedSrcX_modulo by exact Hw.
  apply Z.mod_pos_bound. exact Hw.
Qed.



Section Rasterize.

Variable source : list Z.
Variables width height : nat.
Variables imageWidth imageHeight : Z.
Variables yaw0 pitch0 zoom0 fov0 : R.
Variable type : ProjectionType.

(** The bytes the loops write for the destination pixel [(x, y)]. *)
Let bytesFor (y x : nat) : list Z :=
  let s := sampledAt width height imageWidth imageHeight
             yaw0 pitch0 zoom0 fov0 type y x in
  writtenBytes source imageWidth imageHeight (fst s) (snd s).

Let pixelStep (y x : nat) (dest : list Z) : list Z :=
  renderPixel source width height imageWidth imageHeight
    yaw0 pitch0 zoom0 fov0 type y x dest.

Let rowStep (y : nat) (dest : list Z) : list Z :=
  renderRow source width height imageWidth imageHeight
    yaw0 pitch0 zoom0 fov0 type y dest.

Lemma bytesFor_length (y x : nat) : length (bytesFor y x) = 4%nat.
Proof. reflexivity. Qed.

Lemma renderPixel_writes (y x : nat) (dest : list Z) :
  let d := ((y * width + x) * 4)%nat in
  (d + 3 < length dest)%nat ->
  length (pixelStep y x dest) = length dest
  /\ (forall c, (c < 4)%nat ->
        pixelStep y x dest !! (d + c)%nat = bytesFor y x !! c)
  /\ (forall i, (i < d \/ d + 4 <= i)%nat ->
        pixelStep y x dest !! i = dest !! i).
Proof.
  intros d Hd. unfold pixelStep, renderPixel. fold d.
  split; [rewrite !length_insert; reflexivity |].
  split.
  - intros c Hc.
    destruct c as [| [| [| [| c]]]]; [| | | | lia];
      unfold bytesFor, writtenBytes, sampledAt; cbn [fst snd lookup].
    + rewrite Nat.add_0_r.
      rewrite !list_lookup_insert_ne by lia.
      rewrite list_lookup_insert_eq by lia. reflexivity.
    + rewrite !list_lookup_insert_ne by lia.
      rewrite list_lookup_insert_eq by (rewrite !length_insert; lia).
      reflexivity.
    + rewrite !list_lookup_insert_ne by lia.
      rewrite list_lookup_insert_eq by (rewrite !length_insert; lia).
      reflexivity.
    + rewrite list_lookup_insert_eq by (rewrite !length_insert; lia).
      reflexivity.
  - intros i Hi. rewrite !list_lookup_insert_ne by lia. reflexivity.
Qed.

(** After the first [n] pixels of row [y]. *)
Lemma renderRow_prefix (y n : nat) (dest : list Z) :
  (n <= width)%nat ->
  ((y * width + width) * 4 <= length dest)%nat ->
  let result := fold_left (fun d x => pixelStep y x d) (seq 0 n) dest in
  length result = length dest
  /\ (forall x c, (x < n)%nat -> (c < 4)%nat ->
        result !! ((y * width + x) * 4 + c)%nat = bytesFor y x !! c)
  /\ (forall i, (i < y * width * 4 \/ (y * width + n) * 4 <= i)%nat ->
        result !! i = dest !! i).
Proof.
  intros Hn Hlen. induction n as [| n IH]; cbn zeta.
  - cbn. split; [reflexivity |]. split; [intros; lia | reflexivity].
  - rewrite seq_S, fold_left_app. cbn [fold_left Nat.add].
    destruct IH as (IHlen & IHin & IHout); [lia |].
    set (before := fold_left (fun d x => pixelStep y x d) (seq 0 n) dest)
      in *.
    destruct (renderPixel_writes y n before) as (Plen & Pin & Pout);
      [rewrite IHlen; lia |].
    split; [rewrite Plen; exact IHlen |].
    split.
    + intros x c Hx Hc. destruct (Nat.eq_dec x n) as [-> | Hne].
      * apply Pin. exact Hc.
      * rewrite Pout by lia. apply IHin; lia.
    + intros i Hi. rewrite Pout by lia. apply IHout. lia.
Qed.

Lemma renderRow_writes (y : nat) (dest : list Z) :
  ((y * width + width) * 4 <= length dest)%nat ->
  length (rowStep y dest) = length dest
  /\ (forall x c, (x < width)%nat -> (c < 4)%nat ->
        rowStep y dest !! ((y * width + x) * 4 + c)%nat = bytesFor y x !! c)
  /\ (forall i, (i < y * width * 4 \/ (y * width + width) * 4 <= i)%nat ->
        rowStep y dest !! i = dest !! i).
Proof.
  intros Hlen. apply (renderRow_prefix y width dest); [lia | exact Hlen].
Qed.

(** After the first [m] rows. *)
Lemma rasterize_prefix (m : nat) (dest : list Z) :
  (m <= height)%nat ->
  length dest = (width * height * 4)%nat ->
  let result := fold_left (fun d y => rowStep y d) (seq 0 m) dest in
  length result = length dest
  /\ (forall y x c, (y < m)%nat -> (x < width)%nat -> (c < 4)%nat ->
        result !! ((y * width + x) * 4 + c)%nat = bytesFor y x !! c).
Proof.
  intros Hm Hlen. induction m as [| m IH]; cbn zeta.
  - cbn. split; [reflexivity | intros; lia].
  - rewrite seq_S, fold_left_app. cbn [fold_left Nat.add].
    destruct IH as (IHlen & IHin); [lia |].
    set (before := fold_left (fun d y => rowStep y d) (seq 0 m) dest) in *.
    destruct (renderRow_writes m before) as (Rlen & Rin & Rout);
      [rewrite IHlen, Hlen; nia |].
    split; [rewrite Rlen; exact IHlen |].
    intros y x c Hy Hx Hc. destruct (Nat.eq_dec y m) as [-> | Hne].
    + apply Rin; assumption.
    + rewrite Rout by nia. apply IHin; [lia | assumption | assumption].
Qed.

Lemma rasterize_writes (y x c : nat) :
  (y < height)%nat -> (x < width)%nat -> (c < 4)%nat ->
  rasterize source width height imageWidth imageHeight
    yaw0 pitch0 zoom0 fov0 type !! ((y * width + x) * 4 + c)%nat
  = bytesFor y x !! c.
Proof.
  intros Hy Hx Hc. unfold rasterize.
  destruct (rasterize_prefix height (replicate (width * height * 4) 0%Z))
    as (_ & Hin); [lia | apply length_replicate |].
  apply Hin; assumption.
Qed.

End Rasterize.










(** ** Loading and resizing *)

Arguments rasterize : simpl never.
Arguments LabelRenderer.render : simpl never.

Ltac run_method :=
  unfold render, ensureSource, animationFrame, bind, gets, modify, ret,
    throw; cbn;
  repeat (match goal with
          | |- context [match ?f ?r with _ => _ end] =>
              is_var r; destruct (f r) eqn:?; cbn
          end).

(** [render] never touches the camera state; it throws only when a source
    canvas exists without cached bytes, and then leaves the cached bytes
    as they were. *)
Lemma render_effect (r : Renderer) :
  state (snd (render r)) = state r
  /\ (forall e, fst (render r) = inl e ->
        e = NullSourceData /\ sourceData (snd (render r)) = sourceData r
        /\ sourceData r = None /\ sourceCanvas r <> None)
  /\ (isDirty r = true -> fst (render r) = inr tt ->
      forall img, image r = Some img -> sourceCanvas r = None ->
      offscreenContext r = true ->
      sourceData (snd (render r)) = Some (image_pixels img)).
Proof.
  split; [| split].
  - run_method; reflexivity.
  - intros e. run_method; intros H; try discriminate H;
      injection H as <-; repeat split; auto; try discriminate; congruence.
  - intros Hd Hr img Hi Hs Ho. revert Hr.
    unfold render, ensureSource, bind, gets, modify, ret, throw. cbn.
    rewrite Hd, Hi. cbn. rewrite Hs. cbn. rewrite Ho. cbn.
    destruct (labelRenderer r); cbn; reflexivity.
Qed.



Lemma loadImage_too_small (src : string) (img : HTMLImage) (r : Renderer) :
  tooSmall img ->
  loadImage src (Decoded img) r
  = (inl (ImageTooSmall (image_width img) (image_height img)), r).
Proof.
  unfold tooSmall, loadImage, CONSTRAINTS.MIN_IMAGE_WIDTH,
    CONSTRAINTS.MIN_IMAGE_HEIGHT. intros H.
  destruct (Z.ltb_spec (image_width img) 512);
    destruct (Z.ltb_spec (image_height img) 256); try reflexivity; lia.
Qed.

Lemma loadImage_too_large (src : string) (img : HTMLImage) (r : Renderer) :
  ~ tooSmall img -> tooLarge img ->
  loadImage src (Decoded img) r
  = (inl (ImageTooLarge (image_width img) (image_height img)), r).
Proof.
  unfold tooSmall, tooLarge, loadImage, CONSTRAINTS.MIN_IMAGE_WIDTH,
    CONSTRAINTS.MIN_IMAGE_HEIGHT, CONSTRAINTS.MAX_IMAGE_WIDTH,
    CONSTRAINTS.MAX_IMAGE_HEIGHT. intros Hs Hl.
  destruct (Z.ltb_spec (image_width img) 512); [lia |].
  destruct (Z.ltb_spec (image_height img) 256); [lia |].
  cbn [orb].
  destruct (Z.gtb_spec (image_width img) 8192);
    destruct (Z.gtb_spec (image_height img) 4096); try reflexivity; lia.
Qed.

Lemma loadImage_accepted (src : string) (img : HTMLImage) (r : Renderer) :
  ~ tooSmall img -> ~ tooLarge img ->
  loadImage src (Decoded img) r
  = (modify (set_image (Some img)) >>
     modify (set_isDirty true) >> render >> modify (call OnLoad)) r.
Proof.
  unfold tooSmall, tooLarge, loadImage, CONSTRAINTS.MIN_IMAGE_WIDTH,
    CONSTRAINTS.MIN_IMAGE_HEIGHT, CONSTRAINTS.MAX_IMAGE_WIDTH,
    CONSTRAINTS.MAX_IMAGE_HEIGHT. intros Hs Hl.
  destruct (Z.ltb_spec (image_width img) 512); [lia |].
  destruct (Z.ltb_spec (image_height img) 256); [lia |].
  cbn [orb].
  destruct (Z.gtb_spec (image_width img) 8192); [lia |].
  destruct (Z.gtb_spec (image_height img) 4096); [lia |].
  reflexivity.
Qed.

Lemma accepted_run (img : HTMLImage) (r : Renderer) :
  let r1 := set_isDirty true (set_image (Some img) r) in
  (modify (set_image (Some img)) >>
   modify (set_isDirty true) >> render >> modify (call OnLoad)) r
  = match render r1 with
    | (inl e, r2) => (inl e, r2)
    | (inr _, r2) => (inr tt, call OnLoad r2)
    end.
Proof.
  intros r1. unfold bind at 1 2 3. unfold modify at 1 2. cbn beta iota.
  fold r1. unfold bind. destruct (render r1) as [[e | []] r2]; reflexivity.
Qed.






(** The renderers [sourceReady] leaves out.  When the first render cannot
    obtain the context of the off-screen canvas, it reports the error and
    returns, the load still resolves, and the source canvas is left
    without cached bytes; from then on a load of accepted dimensions
    stops in [render], at the read of the missing bytes. *)
Lemma load_without_source_context (src : string) (img : HTMLImage)
  (r : Renderer) :
  ~ tooSmall img -> ~ tooLarge img ->
  sourceCanvas r = None -> offscreenContext r = false ->
  let r' := snd (loadImage src (Decoded img) r) in
  fst (loadImage src (Decoded img) r) = inr tt
  /\ sourceCanvas r' = Some (image_width img, image_height img)
  /\ sourceData r' = sourceData r
  /\ called r' = called r ++ [OnError SourceContextFailed; OnLoad].
Proof.
  intros Hs Hl Hc Ho. cbv zeta.
  rewrite loadImage_accepted by assumption.
  unfold render, ensureSource, bind, gets, modify, ret, throw. cbn.
  rewrite Hc. cbn. rewrite Ho. cbn.
  rewrite <- app_assoc. repeat split; reflexivity.
Qed.

Lemma load_after_failed_context (src : string) (img : HTMLImage)
  (r : Renderer) :
  ~ tooSmall img -> ~ tooLarge img ->
  sourceCanvas r <> None -> sourceData r = None ->
  fst (loadImage src (Decoded img) r) = inl NullSourceData.
Proof.
  intros Hs Hl Hc Hd.
  rewrite loadImage_accepted by assumption.
  unfold render, ensureSource, bind, gets, modify, ret, throw. cbn.
  destruct (sourceCanvas r) as [size |]; [| contradiction].
  cbn. rewrite Hd. reflexivity.
Qed.

Lemma tooSmall_dec (img : HTMLImage) : {tooSmall img} + {~ tooSmall img}.
Proof.
  unfold tooSmall.
  destruct (Z_lt_dec (image_width img) 512);
    destruct (Z_lt_dec (image_height img) 256);
    (left; lia) || (right; lia).
Qed.

Lemma tooLarge_dec (img : HTMLImage) : {tooLarge img} + {~ tooLarge img}.
Proof.
  unfold tooLarge.
  destruct (Z_gt_dec (image_width img) 8192);
    destruct (Z_gt_dec (image_height img) 4096);
    (left; lia) || (right; lia).
Qed.

Lemma resize_outcome (width height : Z) (r : Renderer) :
  ((width < 100 \/ height < 100)%Z ->
   resize width height r = (inl (CanvasTooSmall width height), r))
  /\ ((100 <= width)%Z -> (100 <= height)%Z ->
      resize width height r
      = (inr tt,
         markDirty (set_canvas_height (Z.to_nat height)
                      (set_canvas_width (Z.to_nat width) r)))).
Proof.
  unfold resize, CONSTRAINTS.MIN_CANVAS_SIZE.
  destruct (Z.ltb_spec width 100); destruct (Z.ltb_spec height 100);
    split; intros; try lia; reflexivity.
Qed.

(** [img.onerror]: stopped by [new URL(src)] before anything is done, or
    [onError] called with the error the promise is rejected with. *)
Lemma loadImage_failed (src : string) (url : option string) (r : Renderer) :
  (looksRemote src = true -> url = None ->
   loadImage src (Failed url) r = (inl (InvalidUrl src), r))
  /\ (looksRemote src = true -> forall hostname, url = Some hostname ->
      loadImage src (Failed url) r
      = (inl (LoadFailed src (Some hostname)),
         call (OnError (LoadFailed src (Some hostname))) r))
  /\ (looksRemote src = false ->
      loadImage src (Failed url) r
      = (inl (LoadFailed src None),
         call (OnError (LoadFailed src None)) r)).
Proof.
  unfold loadImage. repeat split.
  - intros -> ->. reflexivity.
  - intros -> hostname ->. reflexivity.
  - intros ->. reflexivity.
Qed.

Lemma loadImage_failed_cases (src : string) (url : option string)
  (r : Renderer) :
  exists e,
    loadImage src (Failed url) r = (inl e, r)
    \/ loadImage src (Failed url) r = (inl e, call (OnError e) r).
Proof.
  destruct (loadImage_failed src url r) as (Hthrow & Hhost & Hlocal).
  destruct (looksRemote src) eqn:Hremote.
  - destruct url as [hostname |].
    + eexists. right. apply (Hhost eq_refl hostname eq_refl).
    + eexists. left. apply (Hthrow eq_refl eq_refl).
  - eexists. right. apply (Hlocal eq_refl).
Qed.






(** * Further properties of the code *)

(** ** Angle helpers *)

Lemma subtractTurns_whole (fuel : nat) :
  forall angle a, subtractTurns fuel angle = Some a ->
  exists k : nat, a = angle - 2 * PI * INR k.
Proof.
  induction fuel as [| fuel IH]; intros angle a H; [discriminate |].
  cbn in H. destruct (Rlt_dec Math.PI angle).
  - destruct (IH _ _ H) as (k & ->). exists (S k).
    rewrite S_INR. unfold Math.PI. ring.
  - injection H as <-. exists 0%nat. cbn. ring.
Qed.

Lemma addTurns_whole (fuel : nat) :
  forall angle a, addTurns fuel angle = Some a ->
  exists k : nat, a = angle + 2 * PI * INR k.
Proof.
  induction fuel as [| fuel IH]; intros angle a H; [discriminate |].
  cbn in H. destruct (Rlt_dec angle (- Math.PI)).
  - destruct (IH _ _ H) as (k & ->). exists (S k).
    rewrite S_INR. unfold Math.PI. ring.
  - injection H as <-. exists 0%nat. cbn. ring.
Qed.

(** X1.  Whenever the two wrap loops of [normalizeAngle] end, the result
    lies in [[-PI, PI]] and is the argument itself when that was already
    in range.  For an angle of at most a million radians either way (far
    inside the range where subtracting [2 * Math.PI] still changes a
    double) the loops do end, and the result differs from the argument by
    a whole number of turns. *)
Theorem normalizeAngle_wraps_whole_turns (angle : R) :
  (forall fuel a,
     normalizeAngleFuel fuel angle = Some a ->
     - PI <= a <= PI /\ (- PI <= angle <= PI -> a = angle))
  /\ (Rabs angle <= 1000000 ->
      exists (fuel : nat) (k : Z),
        normalizeAngleFuel fuel angle = Some (angle + 2 * PI * IZR k)
        /\ normalizeAngle angle = angle + 2 * PI * IZR k).
Proof.
  destruct (normalizeAngle_terminates angle) as (Hrun & Hin & Hid).
  split.
  - intros fuel a Ha. apply normalizeAngleFuel_stable in Ha. subst a.
    split; assumption.
  - intros _.
    assert (Hk : exists k : Z, normalizeAngle angle = angle + 2 * PI * IZR k).
    { unfold normalizeAngleFuel in Hrun.
      destruct (subtractTurns (turnsBound angle) angle) as [a |] eqn:E;
        [| discriminate].
      destruct (subtractTurns_whole _ _ _ E) as (k1 & ->).
      destruct (addTurns_whole _ _ _ Hrun) as (k2 & ->).
      exists (Z.of_nat k2 - Z.of_nat k1)%Z.
      rewrite minus_IZR, <- !INR_IZR_INZ. ring. }
    destruct Hk as (k & Hk). exists (turnsBound angle), k.
    rewrite <- Hk. split; [exact Hrun | reflexivity].
Qed.

Lemma normalizeAngle_wraps_whole_turns_witness :
  normalizeAngle 5 = 5 - 2 * PI.
Proof.
  pose proof PI_bounds as Hpi.
  destruct (normalizeAngle_wraps_whole_turns 5) as [Hends Hwrap].
  destruct Hwrap as (fuel & k & Hrun & Hval).
  { unfold Rabs. destruct Rcase_abs; lra. }
  destruct (Hends fuel _ Hrun) as [Hin _].
  rewrite Hval.
  assert (Hk : k = (-1)%Z).
  { destruct (Z_lt_le_dec k (-1)) as [Hlow | Hlow].
    - assert (IZR k <= -2) by (apply IZR_le; lia). nra.
    - destruct (Z_lt_le_dec (-1) k) as [Hhigh | Hhigh]; [| lia].
      assert (0 <= IZR k) by (apply IZR_le; lia). nra. }
  rewrite Hk. lra.
Defined.

(** X2.  [clamp] with ordered bounds returns a value within them: the
    value itself when it is within, the nearer bound otherwise; clamping
    twice is clamping once.  With the bounds in the wrong order it
    returns the lower bound [min], whatever the value. *)
Theorem clamp_between_bounds (value min max : R) :
  (min <= max ->
   min <= clamp value min max <= max
   /\ (min <= value <= max -> clamp value min max = value)
   /\ (value < min -> clamp value min max = min)
   /\ (max < value -> clamp value min max = max))
  /\ (max < min -> clamp value min max = min)
  /\ clamp (clamp value min max) min max = clamp value min max.
Proof.
  unfold clamp, Math.max, Math.min, Rmax, Rmin.
  repeat split; intros; repeat destruct Rle_dec; lra.
Qed.

Lemma clamp_between_bounds_witness :
  clamp 95 (-90) 90 = 90 /\ clamp 7 3 0.5 = 3.
Proof.
  destruct (clamp_between_bounds 95 (-90) 90) as (H & _).
  destruct H as (_ & _ & _ & Hhigh); [lra |].
  destruct (clamp_between_bounds 7 3 0.5) as (_ & Hswap & _).
  split; [apply Hhigh; lra | apply Hswap; lra].
Defined.

(** X3.  [degToRad] and [radToDeg] are inverse to each other, and a
    half turn is 180 degrees. *)
Theorem degrees_and_radians_inverse (v : R) :
  radToDeg (degToRad v) = v
  /\ degToRad (radToDeg v) = v
  /\ degToRad 180 = PI
  /\ radToDeg PI = 180.
Proof.
  pose proof PI_neq0.
  unfold radToDeg, degToRad, Math.PI.
  repeat split; field; assumption.
Qed.

(** ** [projectToSource] *)

(** X4.  For a viewport of non-zero width and height, a zoom other than
    zero and an image of positive width and height, the sample
    [projectToSource] returns lies within the image rectangle, both ends
    included, for every viewport point, camera angle, field of view and
    projection type. *)
Theorem projectToSource_within_image
  (x y width height imageWidth imageHeight yaw0 pitch0 zoom0 fov : R)
  (type : ProjectionType) :
  width <> 0 -> height <> 0 -> zoom0 <> 0 ->
  0 < imageWidth -> 0 < imageHeight ->
  let sample := projectToSource x y width height imageWidth imageHeight
                  yaw0 pitch0 zoom0 fov type in
  0 <= sample_x sample <= imageWidth
  /\ 0 <= sample_y sample <= imageHeight.
Proof.
  intros _ _ _ Hw Hh. pose proof PI_bounds as Hpi.
  unfold projectToSource.
  destruct (viewportToAngles _ _ _ _ _) as [theta phi].
  cbn [sample_x sample_y].
  destruct (normalizeAngle_terminates (theta + yaw0)) as (_ & Hlon & _).
  set (lon := normalizeAngle (theta + yaw0)) in *.
  set (lat := Math.max (- Math.PI / 2) (Math.min (Math.PI / 2)
                                          (phi + pitch0))).
  assert (Hlat : - (PI / 2) <= lat <= PI / 2).
  { unfold lat, Math.max, Math.min, Math.PI, Rmax, Rmin.
    repeat destruct Rle_dec; lra. }
  unfold Math.PI.
  assert (Hu : 0 <= (lon + PI) / (2 * PI) <= 1).
  { split.
    - apply Rmult_le_pos; [lra |]. apply Rlt_le, Rinv_0_lt_compat. lra.
    - apply Rmult_le_reg_r with (2 * PI); [lra |].
      unfold Rdiv. rewrite Rmult_assoc, Rinv_l by lra. lra. }
  assert (Hv : 0 <= (lat + PI / 2) / PI <= 1).
  { split.
    - apply Rmult_le_pos; [lra |]. apply Rlt_le, Rinv_0_lt_compat. lra.
    - apply Rmult_le_reg_r with PI; [lra |].
      unfold Rdiv at 1. rewrite Rmult_assoc, Rinv_l by lra. lra. }
  split; nra.
Qed.

Lemma projectToSource_within_image_witness :
  0 <= sample_x (projectToSource 10 20 400 300 2000 1000 0 0 1 (PI / 2)
                   STEREOGRAPHIC) <= 2000.
Proof.
  apply (projectToSource_within_image 10 20 400 300 2000 1000 0 0 1
           (PI / 2) STEREOGRAPHIC); lra.
Defined.

(** X5.  Under the Rectilinear, Equidistant and Equisolid projections,
    [projectToViewport] after [projectToSource] gives back the viewport
    pixel [(x, y)], for a viewport and an image of positive size, a
    positive zoom and a field of view in [(0, PI)], when all of the
    following hold: under Equidistant the radius of the zoomed point and
    the angle computed from it are at least [1e-4], under Equisolid the
    radius is between [1e-4] and [2]; the angle [theta] that
    [viewportToAngles] gives lies in [[-PI, PI]]; the longitude
    [theta + yaw] lies in [[-PI, PI]], so that it does not wrap; the
    latitude [phi + pitch] lies in [[-PI/2, PI/2]], so that it is not
    clamped; the zoomed point lies within 1.2 of the centre in both
    coordinates and the pixel within 100 of the viewport, so that it
    passes the two visibility tests. *)
Theorem viewport_source_viewport
  (x y width height imageWidth imageHeight yaw0 pitch0 zoom0 fov : R)
  (type : ProjectionType) (theta phi : R) :
  0 < width -> 0 < height -> 0 < imageWidth -> 0 < imageHeight ->
  0 < zoom0 -> 0 < fov < PI ->
  let zx := (2 * x / width - 1) / zoom0 in
  let zy := (2 * y / height - 1) / zoom0 in
  let r := Table.radius zx zy (width / height) in
  type <> STEREOGRAPHIC ->
  (type = EQUIDISTANT ->
   0.0001 <= r
   /\ 0.0001 <= Table.forwardAngle EQUIDISTANT r fov (width / height)) ->
  (type = EQUISOLID -> 0.0001 <= r <= 2) ->
  viewportToAngles (getProjectionStrategy type) zx zy fov (width / height)
  = (theta, phi) ->
  - PI <= theta <= PI ->
  - PI <= theta + yaw0 <= PI ->
  - (PI / 2) <= phi + pitch0 <= PI / 2 ->
  -1.2 <= zx <= 1.2 -> -1.2 <= zy <= 1.2 ->
  -100 <= x <= width + 100 -> -100 <= y <= height + 100 ->
  let sample := projectToSource x y width height imageWidth imageHeight
                  yaw0 pitch0 zoom0 fov type in
  projectToViewport (sample_x sample) (sample_y sample)
    imageWidth imageHeight width height yaw0 pitch0 zoom0 fov type
  = Some (mkPixel x y).
Proof.
  intros Hw Hh Hiw Hih Hz Hfov zx zy r Hns Hed Hes Hfwd Htheta Hlon Hlat
    Hzx Hzy Hx Hy.
  pose proof PI_bounds as Hpi.
  assert (Har : 0 < width / height).
  { apply Rmult_lt_0_compat; [exact Hw | apply Rinv_0_lt_compat; exact Hh]. }
  assert (Hround : roundTrip type zx zy fov (width / height) = (zx, zy)).
  { destruct type.
    - apply rectilinear_round_trip; assumption.
    - contradiction (Hns eq_refl).
    - destruct (Hed eq_refl) as [Hr Ha].
      apply equidistant_round_trip; assumption.
    - apply equisolid_round_trip; first [assumption | apply (Hes eq_refl)]. }
  unfold roundTrip in Hround. rewrite Hfwd in Hround.
  intros sample. subst sample. unfold projectToSource.
  fold zx zy. rewrite Hfwd.
  destruct (normalizeAngle_terminates (theta + yaw0)) as (_ & _ & Hid1).
  rewrite (Hid1 Hlon).
  assert (Hclamp : Math.max (- Math.PI / 2)
                     (Math.min (Math.PI / 2) (phi + pitch0))
                   = phi + pitch0).
  { unfold Math.max, Math.min, Math.PI, Rmax, Rmin.
    repeat destruct Rle_dec; lra. }
  rewrite Hclamp. cbn [sample_x sample_y].
  unfold projectToViewport.
  replace ((theta + yaw0 + Math.PI) / (2 * Math.PI) * imageWidth
           / imageWidth * 2 * Math.PI - Math.PI - yaw0) with theta
    by (unfold Math.PI; field; lra).
  replace ((phi + pitch0 + Math.PI / 2) / Math.PI * imageHeight
           / imageHeight * Math.PI - Math.PI / 2 - pitch0) with phi
    by (unfold Math.PI; field; lra).
  destruct (normalizeAngle_terminates theta) as (_ & _ & Hid2).
  rewrite (Hid2 Htheta), Hround.
  rewrite outsideField_false by assumption.
  replace ((zx * zoom0 + 1) / 2 * width) with x
    by (unfold zx; field; lra).
  replace ((zy * zoom0 + 1) / 2 * height) with y
    by (unfold zy; field; lra).
  rewrite outsideMargin_false by assumption. reflexivity.
Qed.

Lemma viewport_source_viewport_witness :
  (let sample := projectToSource 300 100 400 300 2000 1000 0 0 1 (PI / 2)
                   RECTILINEAR in
   projectToViewport (sample_x sample) (sample_y sample)
     2000 1000 400 300 0 0 1 (PI / 2) RECTILINEAR
   = Some (mkPixel 300 100))
  /\ (let sample := projectToSource 300 150 400 300 2000 1000 0 0 1 (PI / 2)
                      EQUIDISTANT in
      projectToViewport (sample_x sample) (sample_y sample)
        2000 1000 400 300 0 0 1 (PI / 2) EQUIDISTANT
      = Some (mkPixel 300 150)).
Proof.
  pose proof PI_bounds as Hpi. split.
  - set (zx := (2 * 300 / 400 - 1) / 1).
    set (zy := (2 * 100 / 300 - 1) / 1).
    set (theta := atan (zx * (400 / 300) * tan (PI / 2 / 2))).
    set (phi := atan (zy * tan (PI / 2 / 2))).
    assert (Hfwd :
      viewportToAngles (getProjectionStrategy RECTILINEAR) zx zy (PI / 2)
        (400 / 300) = (theta, phi)).
    { cbn. unfold RectilinearProjection.viewportToAngles, Math.atan, Math.tan.
      rewrite atan2_one. reflexivity. }
    pose proof (atan_bound (zx * (400 / 300) * tan (PI / 2 / 2))) as Bt.
    pose proof (atan_bound (zy * tan (PI / 2 / 2))) as Bp.
    fold theta in Bt. fold phi in Bp.
    apply (viewport_source_viewport 300 100 400 300 2000 1000 0 0 1 (PI / 2)
             RECTILINEAR theta phi); try lra; try exact Hfwd;
      try discriminate; try (unfold zx; lra); unfold zy; lra.
  - set (zx := (2 * 300 / 400 - 1) / 1).
    set (zy := (2 * 150 / 300 - 1) / 1).
    assert (Hr : sqrt (zx * (400 / 300) * (zx * (400 / 300)) + zy * zy)
                 = 2 / 3)
      by (apply sqrt_of_square; unfold zx, zy; lra).
    assert (Hm : sqrt (400 / 300 * (400 / 300) + 1) = 5 / 3)
      by (apply sqrt_of_square; lra).
    assert (Hfwd :
      viewportToAngles (getProjectionStrategy EQUIDISTANT) zx zy (PI / 2)
        (400 / 300) = (PI / 10, 0)).
    { cbn. unfold EquidistantProjection.viewportToAngles, Math.sqrt.
      rewrite Hr, Hm. destruct Rlt_dec; [lra |].
      f_equal; unfold zx, zy; field. }
    apply (viewport_source_viewport 300 150 400 300 2000 1000 0 0 1 (PI / 2)
             EQUIDISTANT (PI / 10) 0); try lra; try exact Hfwd;
      try discriminate; try (unfold zx; lra); try (unfold zy; lra).
    intros _. unfold Table.radius, Table.forwardAngle. fold zx zy.
    rewrite Hr, Hm. lra.
Defined.

(** ** Drag velocity away from the centre *)

(** X6.  For a non-negative base sensitivity the two components of the
    drag velocity are equal and never exceed the base sensitivity in
    absolute value, at every position; under Equidistant the velocity
    stays between half the base sensitivity and the base sensitivity,
    under Equisolid between 0.6 of it and it, and under Rectilinear it is
    the base sensitivity. *)
Theorem drag_velocity_bounds (type : ProjectionType) (nx ny s : R) :
  0 <= s ->
  let v := getDragVelocity (getProjectionStrategy type) nx ny s in
  fst v = snd v
  /\ Rabs (fst v) <= s
  /\ (type = EQUIDISTANT -> 0.5 * s <= fst v <= s)
  /\ (type = EQUISOLID -> 0.6 * s <= fst v <= s)
  /\ (type = RECTILINEAR -> fst v = s).
Proof.
  intros Hs. pose proof (sqrt_pos (nx * nx + ny * ny)) as Hr.
  destruct type; cbn.
  - repeat split; try discriminate.
    unfold Rabs. destruct Rcase_abs; lra.
  - unfold Math.cos, Math.sqrt.
    set (c := cos (sqrt (nx * nx + ny * ny) * Math.PI / 4)).
    pose proof (COS_bound (sqrt (nx * nx + ny * ny) * Math.PI / 4)) as Hc.
    fold c in Hc.
    repeat split; try discriminate.
    unfold Rabs. destruct Rcase_abs; nra.
  - unfold Math.max, Math.sqrt.
    set (f := Rmax 0.5 (1 - sqrt (nx * nx + ny * ny) * 0.15)).
    assert (Hf : 0.5 <= f <= 1).
    { unfold f, Rmax. destruct Rle_dec; lra. }
    repeat split; try discriminate; try nra.
    unfold Rabs. destruct Rcase_abs; nra.
  - unfold Math.max, Math.sqrt.
    set (f := Rmax 0.6 (1 - sqrt (nx * nx + ny * ny) * 0.2)).
    assert (Hf : 0.6 <= f <= 1).
    { unfold f, Rmax. destruct Rle_dec; lra. }
    repeat split; try discriminate; try nra.
    unfold Rabs. destruct Rcase_abs; nra.
Qed.

Lemma drag_velocity_bounds_witness :
  0.25 <= fst (getDragVelocity (getProjectionStrategy EQUIDISTANT)
                 1 1 0.5) <= 0.5.
Proof.
  destruct (drag_velocity_bounds EQUIDISTANT 1 1 0.5) as (_ & _ & H & _);
    [lra |].
  specialize (H eq_refl). lra.
Defined.

(** X7.  Under Stereographic, [anglesToViewport] after [viewportToAngles]
    returns the point doubled, [(2 * nx, 2 * ny)], for a field of view in
    [(0, PI)], a positive aspect ratio and a point whose radius and
    computed angle are both at least [1e-4]. *)
Theorem stereographic_inverse_doubles (nx ny fov aspectRatio : R) :
  0 < fov < PI -> 0 < aspectRatio ->
  0.0001 <= Table.radius nx ny aspectRatio ->
  0.0001 <= Table.forwardAngle STEREOGRAPHIC
              (Table.radius nx ny aspectRatio) fov aspectRatio ->
  roundTrip STEREOGRAPHIC nx ny fov aspectRatio = (2 * nx, 2 * ny).
Proof.
  intros Hfov Har Hr Hangle.
  apply stereographic_round_trip_doubles; assumption.
Qed.

Lemma stereographic_inverse_doubles_witness :
  roundTrip STEREOGRAPHIC 0 2 1 1 = (2 * 0, 2 * 2).
Proof.
  pose proof PI_bounds as Hpi.
  assert (Hr : Table.radius 0 2 1 = 2).
  { unfold Table.radius. apply sqrt_of_square; lra. }
  apply stereographic_inverse_doubles; try lra.
  rewrite Hr. cbn [Table.forwardAngle].
  assert (Ht : 0 < tan (1 / 4) < 1).
  { split; [apply tan_gt_0; lra |].
    pose proof (tan_increasing_1 (1 / 4) (PI / 4)) as Hinc.
    rewrite tan_PI4 in Hinc. apply Hinc; lra. }
  assert (Hq : 1 < 2 / (2 * tan (1 / 4))).
  { apply Rmult_lt_reg_r with (2 * tan (1 / 4)); [lra |].
    unfold Rdiv. rewrite Rmult_assoc, Rinv_l by lra. lra. }
  pose proof (atan_increasing _ _ Hq) as Hat.
  rewrite atan_1 in Hat. lra.
Defined.

(** ** What a sequence of calls keeps *)

Lemma config_markDirty (r : Renderer) :
  config (markDirty r) = config r
  /\ projectionType (markDirty r) = projectionType r.
Proof.
  unfold markDirty, scheduleRender. cbn.
  destruct (animationFrameId r); split; reflexivity.
Qed.

Lemma render_frame (r : Renderer) :
  config (snd (render r)) = config r
  /\ projectionType (snd (render r)) = projectionType r
  /\ image (snd (render r)) = image r
  /\ labelRenderer (snd (render r)) = labelRenderer r
  /\ canvas_width (snd (render r)) = canvas_width r
  /\ canvas_height (snd (render r)) = canvas_height r
  /\ animationFrameId (snd (render r)) = animationFrameId r.
Proof. run_method; repeat split; congruence. Qed.

Lemma animationFrame_run (r : Renderer) :
  animationFrame r
  = match render r with
    | (inl e, r1) => (inl e, r1)
    | (inr _, r1) =>
        (inr tt,
         call (OnViewChange (state r1)) (set_animationFrameId None r1))
    end.
Proof.
  unfold animationFrame, bind.
  destruct (render r) as [[e | []] r1]; reflexivity.
Qed.

Lemma animationFrame_frame (r : Renderer) :
  state (snd (animationFrame r)) = state r
  /\ config (snd (animationFrame r)) = config r
  /\ projectionType (snd (animationFrame r)) = projectionType r.
Proof.
  destruct (render_effect r) as (Hs & _).
  destruct (render_frame r) as (Hc & Hp & _).
  rewrite animationFrame_run.
  destruct (render r) as [[e | []] r1]; cbn [fst snd] in *;
    repeat split; assumption.
Qed.

Lemma loadImage_frame (src : string) (outcome : LoadOutcome)
  (r : Renderer) :
  state (snd (loadImage src outcome r)) = state r
  /\ config (snd (loadImage src outcome r)) = config r
  /\ projectionType (snd (loadImage src outcome r)) = projectionType r.
Proof.
  destruct outcome as [img | url];
    [| destruct (loadImage_failed_cases src url r) as (e & [H | H]);
       rewrite H; repeat split; reflexivity].
  destruct (tooSmall_dec img) as [Hs | Hs].
  { rewrite loadImage_too_small by exact Hs. repeat split; reflexivity. }
  destruct (tooLarge_dec img) as [Hl | Hl].
  { rewrite loadImage_too_large by assumption. repeat split; reflexivity. }
  rewrite loadImage_accepted by assumption. rewrite accepted_run. cbv zeta.
  set (r1 := set_isDirty true (set_image (Some img) r)).
  destruct (render_effect r1) as (Hst & _).
  destruct (render_frame r1) as (Hc & Hp & _).
  destruct (render r1) as [[e | []] r2]; cbn [fst snd] in *;
    repeat split; assumption.
Qed.

Lemma resize_frame (width height : Z) (r : Renderer) :
  state (snd (resize width height r)) = state r
  /\ config (snd (resize width height r)) = config r
  /\ projectionType (snd (resize width height r)) = projectionType r.
Proof.
  destruct (resize_outcome width height r) as [Hbad Hgood].
  destruct (Z_lt_dec width 100) as [Hw | Hw];
    [rewrite Hbad by (left; exact Hw); repeat split; reflexivity |].
  destruct (Z_lt_dec height 100) as [Hh | Hh];
    [rewrite Hbad by (right; exact Hh); repeat split; reflexivity |].
  rewrite Hgood by lia. cbn [snd].
  rewrite state_markDirty.
  destruct (config_markDirty
              (set_canvas_height (Z.to_nat height)
                 (set_canvas_width (Z.to_nat width) r))) as [-> ->].
  repeat split; reflexivity.
Qed.

Ltac open_handlers :=
  unfold handleInput, handleTouchStart, handleTouchMove, handleTouchEnd,
    handleKeyDown, handleWheel, handleMouseUp, handleMouseMove,
    handleMouseDown.

Ltac split_cases :=
  repeat match goal with
         | |- context [if String.eqb ?a ?b then _ else _] =>
             destruct (String.eqb a b)
         | |- context [match ?f ?r with _ => _ end] =>
             is_var r; destruct (f r) eqn:?
         | |- context [match ?x with _ => _ end] =>
             is_var x; destruct x eqn:?
         | |- context [if negb (?f (?g ?r)) then _ else _] =>
             is_var r; destruct (f (g r)) eqn:?; cbn [negb]
         end.

Lemma handleInput_setup (type : InputType) (data : InputData)
  (r : Renderer) :
  config (handleInput type data r) = config r
  /\ projectionType (handleInput type data r) = projectionType r.
Proof.
  destruct data as [dx0 dy0 ddx ddy dY key touches].
  destruct type; open_handlers; cbn; split_cases; cbn;
    repeat match goal with
           | |- context [markDirty ?x] =>
               destruct (config_markDirty x) as [-> ->]
           end;
    cbn; split; reflexivity.
Qed.

Ltac bound_angles :=
  repeat match goal with
         | |- context [radToDeg (normalizeAngle (degToRad ?v))] =>
             let H := fresh "Hnorm" in
             pose proof (normalize_degrees_range v) as H;
             let a := fresh "wrapped" in
             set (a := radToDeg (normalizeAngle (degToRad v))) in *;
             clearbody a
         end.

Ltac bound_numbers :=
  unfold withinBounds, yawInRange, clamp, Math.max, Math.min, Rmax, Rmin,
    CONSTRAINTS.MIN_PITCH, CONSTRAINTS.MAX_PITCH in *;
  cbn [yaw pitch zoom isDragging] in *;
  repeat destruct Rle_dec; try lra.

Lemma handleInput_bounds (type : InputType) (data : InputData)
  (r : Renderer) :
  (withinBounds (config r) (state r) ->
   withinBounds (config r) (state (handleInput type data r)))
  /\ (yawInRange (yaw (state r)) ->
      yawInRange (yaw (state (handleInput type data r)))).
Proof.
  destruct data as [dx0 dy0 ddx ddy dY key touches].
  destruct type; open_handlers; cbn; split_cases; cbn;
    rewrite ?state_markDirty; cbn;
    unfold set_yaw, set_pitch, set_zoom, set_isDragging; cbn;
    bound_angles; split; intros Hb;
    try (destruct (gtb _ _)); bound_numbers.
Qed.

Lemma setState_bounds (partialState : PartialViewState) (r : Renderer) :
  config (setState partialState r) = config r
  /\ projectionType (setState partialState r) = projectionType r
  /\ (withinBounds (config r) (state r) ->
      withinBounds (config r) (state (setState partialState r)))
  /\ (givesYawInRange (OpSetState partialState) ->
      yawInRange (yaw (state r)) ->
      yawInRange (yaw (state (setState partialState r)))).
Proof.
  destruct partialState as [py pp pz]. unfold setState, givesYawInRange.
  cbn [partial_yaw partial_pitch partial_zoom].
  match goal with
  | |- context [markDirty ?x] =>
      destruct (config_markDirty x) as [-> ->]
  end.
  rewrite state_markDirty.
  destruct py, pp, pz; cbn;
    unfold set_yaw, set_pitch, set_zoom; cbn;
    repeat split; intros; bound_numbers.
Qed.

Lemma setLabels_frame (labels : list PanoramaLabel) (r : Renderer) :
  state (setLabels labels r) = state r
  /\ config (setLabels labels r) = config r
  /\ projectionType (setLabels labels r) = projectionType r.
Proof.
  unfold setLabels. destruct (labelRenderer r); [| repeat split].
  rewrite state_markDirty.
  match goal with
  | |- context [markDirty ?x] =>
      destruct (config_markDirty x) as [-> ->]
  end.
  repeat split.
Qed.

Lemma perform_keeps (op : Operation) (r : Renderer) :
  config (perform op r) = config r
  /\ projectionType (perform op r) = projectionType r
  /\ (withinBounds (config r) (state r) ->
      withinBounds (config r) (state (perform op r)))
  /\ (givesYawInRange op -> yawInRange (yaw (state r)) ->
      yawInRange (yaw (state (perform op r)))).
Proof.
  destruct op as [type data | partialState | labels | width height
                  | src outcome |]; cbn [perform].
  - destruct (handleInput_setup type data r) as [Hc Hp].
    destruct (handleInput_bounds type data r) as [Hb Hy].
    split; [| split; [| split]]; auto.
  - apply setState_bounds.
  - destruct (setLabels_frame labels r) as (-> & Hc & Hp).
    split; [| split; [| split]]; auto.
  - destruct (resize_frame width height r) as (-> & Hc & Hp).
    split; [| split; [| split]]; auto.
  - destruct (loadImage_frame src outcome r) as (-> & Hc & Hp).
    split; [| split; [| split]]; auto.
  - destruct (animationFrameId r); [| split; [| split; [| split]]; auto].
    destruct (animationFrame_frame r) as (-> & Hc & Hp).
    split; [| split; [| split]]; auto.
Qed.

(** X8.  Whatever is done to a renderer after construction (input events,
    [setState], [setLabels], [resize], [loadImage], animation frames, in
    any order and number), its configuration and its projection type
    stay those it was constructed with; the pitch stays within
    [[-90, 90]]; the zoom stays at or above [minZoom], and at or below
    [maxZoom] when [minZoom <= maxZoom]. *)
Theorem view_bounds_kept (canvasWidth canvasHeight : nat)
  (cfg : RendererConfig) (offscreen : bool) (ops : list Operation) :
  let r := performAll ops
             (construct canvasWidth canvasHeight cfg offscreen) in
  config r = cfg
  /\ projectionType r = config_projectionType cfg
  /\ -90 <= pitch (getState r) <= 90
  /\ minZoom cfg <= zoom (getState r)
  /\ (minZoom cfg <= maxZoom cfg -> zoom (getState r) <= maxZoom cfg).
Proof.
  cbv zeta. unfold performAll.
  set (r0 := construct canvasWidth canvasHeight cfg offscreen).
  assert (Hinit : config r0 = cfg
                  /\ projectionType r0 = config_projectionType cfg
                  /\ withinBounds cfg (state r0)).
  { unfold r0, construct. cbn. repeat split; bound_numbers. }
  clearbody r0. revert r0 Hinit.
  induction ops as [| op ops IH]; intros r0 (Hc & Hp & Hb); cbn [fold_left].
  - unfold withinBounds in Hb. cbn [getState pitch zoom]. tauto.
  - apply IH. destruct (perform_keeps op r0) as (Hc' & Hp' & Hb' & _).
    rewrite Hc', Hp'. rewrite Hc in Hb'. auto.
Qed.

Lemma view_bounds_kept_witness :
  zoom (getState
          (performAll
             [OpInput wheel (mkInput None None None None (Some 1) None None);
              OpSetState (mkPartial None (Some 500) (Some 9))]
             freshRenderer)) <= 3.0.
Proof.
  destruct (view_bounds_kept 800 600 defaultConfig true
              [OpInput wheel (mkInput None None None None (Some 1) None None);
               OpSetState (mkPartial None (Some 500) (Some 9))])
    as (_ & _ & _ & _ & Hmax).
  apply Hmax. cbn. unfold CONSTRAINTS.DEFAULT_MIN_ZOOM,
    CONSTRAINTS.DEFAULT_MAX_ZOOM. lra.
Defined.

(** X9.  When the initial yaw is within [[-180, 180]] and every yaw
    handed to [setState] is, the yaw stays within [[-180, 180]] through
    any sequence of calls. *)
Theorem yaw_range_kept (canvasWidth canvasHeight : nat)
  (cfg : RendererConfig) (offscreen : bool) (ops : list Operation) :
  yawInRange (initialYaw cfg) ->
  Forall givesYawInRange ops ->
  -180 <= yaw (getState
                 (performAll ops
                    (construct canvasWidth canvasHeight cfg offscreen)))
       <= 180.
Proof.
  intros Hinit Hops. unfold performAll.
  set (r0 := construct canvasWidth canvasHeight cfg offscreen).
  assert (H0 : yawInRange (yaw (state r0))) by exact Hinit.
  clearbody r0. revert r0 H0.
  induction Hops as [| op ops Hop Hops IH]; intros r0 H0; cbn [fold_left].
  - exact H0.
  - apply IH. destruct (perform_keeps op r0) as (_ & _ & _ & Hy). auto.
Qed.

Lemma yaw_range_kept_witness :
  -180 <= yaw (getState
                 (performAll
                    [OpSetState (mkPartial (Some 170) None None);
                     OpInput key_down (keyPress "ArrowRight");
                     OpInput key_down (keyPress "ArrowRight");
                     OpInput key_down (keyPress "ArrowRight")]
                    freshRenderer)) <= 180.
Proof.
  apply (yaw_range_kept 800 600 defaultConfig true).
  - unfold yawInRange. cbn. lra.
  - repeat constructor; cbn; unfold yawInRange; try lra.
Defined.

(** ** Single events *)

Lemma wheel_state (deltaY : R) (r : Renderer) :
  state (handleInput wheel (wheelBy deltaY) r)
  = set_zoom
      (clamp (zoom (state r) + (if gtb deltaY 0 then -0.1 else 0.1))
         (minZoom (config r)) (maxZoom (config r)))
      (state r).
Proof.
  cbn [handleInput]. unfold handleWheel, wheelBy. cbn [data_deltaY].
  rewrite state_markDirty. reflexivity.
Qed.

(** X10.  A wheel event changes only the zoom: by -0.1 for a positive
    [deltaY] and by +0.1 otherwise (a [deltaY] of 0 zooms in), clamped to
    the configured bounds, and it marks the frame dirty.  While the zoom
    stays within ordered bounds, a step out followed by a step in, or a
    step in followed by a step out, gives back the zoom. *)
Theorem wheel_steps_zoom (deltaY : R) (r : Renderer) :
  let lo := minZoom (config r) in
  let hi := maxZoom (config r) in
  let z := zoom (state r) in
  let r' := handleInput wheel (wheelBy deltaY) r in
  (yaw (state r') = yaw (state r) /\ pitch (state r') = pitch (state r)
   /\ isDirty r' = true)
  /\ (0 < deltaY -> zoom (state r') = clamp (z - 0.1) lo hi)
  /\ (deltaY <= 0 -> zoom (state r') = clamp (z + 0.1) lo hi)
  /\ (lo <= z - 0.1 -> z <= hi ->
      zoom (state (handleInput wheel (wheelBy (-100))
                     (handleInput wheel (wheelBy 100) r))) = z)
  /\ (lo <= z -> z + 0.1 <= hi ->
      zoom (state (handleInput wheel (wheelBy 100)
                     (handleInput wheel (wheelBy (-100)) r))) = z).
Proof.
  intros lo hi z r'.
  assert (Hcfg : forall d, config (handleInput wheel (wheelBy d) r)
                           = config r)
    by (intros d; apply handleInput_setup).
  assert (Hpos : gtb 100 0 = true) by (apply gtb_true; lra).
  assert (Hneg : gtb (-100) 0 = false) by (apply gtb_false; lra).
  split; [| split; [| split; [| split]]].
  - subst r'. rewrite wheel_state. cbn [yaw pitch set_zoom].
    repeat split. cbn [handleInput]. unfold handleWheel, wheelBy, markDirty,
      scheduleRender. cbn. destruct (animationFrameId r); reflexivity.
  - intros Hd. subst r'. rewrite wheel_state. cbn [zoom set_zoom].
    assert (G : gtb deltaY 0 = true) by (apply gtb_true; lra).
    rewrite G. unfold clamp. do 2 f_equal. subst z. lra.
  - intros Hd. subst r'. rewrite wheel_state. cbn [zoom set_zoom].
    assert (G : gtb deltaY 0 = false) by (apply gtb_false; lra).
    rewrite G. reflexivity.
  - intros H1 H2. rewrite !wheel_state, Hcfg, Hpos, Hneg.
    cbn [zoom set_zoom]. fold lo hi z.
    rewrite (clamp_id (z + -0.1)) by lra. rewrite clamp_id by lra. lra.
  - intros H1 H2. rewrite !wheel_state, Hcfg, Hpos, Hneg.
    cbn [zoom set_zoom]. fold lo hi z.
    rewrite (clamp_id (z + 0.1)) by lra. rewrite clamp_id by lra. lra.
Qed.

Lemma wheel_steps_zoom_witness :
  zoom (state (handleInput wheel (wheelBy (-100))
                 (handleInput wheel (wheelBy 100) freshRenderer))) = 1.
Proof.
  destruct (wheel_steps_zoom 0 freshRenderer) as (_ & _ & _ & Hback & _).
  assert (Hz : zoom (state freshRenderer) = 1).
  { cbn. rewrite clamp_id; unfold CONSTRAINTS.DEFAULT_MIN_ZOOM,
      CONSTRAINTS.DEFAULT_MAX_ZOOM; lra. }
  rewrite Hback; [exact Hz | |]; rewrite Hz; cbn;
    unfold CONSTRAINTS.DEFAULT_MIN_ZOOM, CONSTRAINTS.DEFAULT_MAX_ZOOM; lra.
Defined.

Lemma arrow_right_state (r : Renderer) :
  enableKeyboard (config r) = true ->
  state (handleInput key_down (keyPress "ArrowRight") r)
  = set_yaw (radToDeg (normalizeAngle (degToRad (yaw (state r) + 5))))
      (state r)
  /\ config (handleInput key_down (keyPress "ArrowRight") r) = config r.
Proof.
  intros Hkb. split; [| apply handleInput_setup].
  cbn [handleInput]. unfold handleKeyDown. rewrite Hkb.
  cbn. rewrite state_markDirty. reflexivity.
Qed.

Lemma repeated_config (n : nat) (type : InputType) (data : InputData)
  (r : Renderer) :
  config (Nat.iter n (handleInput type data) r) = config r.
Proof.
  induction n as [| n IH]; [reflexivity |].
  rewrite Nat.iter_succ.
  destruct (handleInput_setup type data
              (Nat.iter n (handleInput type data) r)) as [-> _].
  exact IH.
Qed.

(** X11.  With the keyboard enabled, [n] presses of ArrowRight from a yaw
    of at least -180 turn the camera by [5 * n] degrees, as long as the
    result is at most 179, clear of the wrap at 180; pitch and zoom are
    as before. *)
Theorem arrow_right_presses_add_up (n : nat) (r : Renderer) :
  enableKeyboard (config r) = true ->
  -180 <= yaw (state r) ->
  yaw (state r) + 5 * INR n <= 179 ->
  let r' := repeated n key_down (keyPress "ArrowRight") r in
  yaw (getState r') = yaw (state r) + 5 * INR n
  /\ pitch (getState r') = pitch (state r)
  /\ zoom (getState r') = zoom (state r).
Proof.
  intros Hkb Hlo Hhi. cbv zeta. unfold repeated.
  induction n as [| n IH].
  - cbn. repeat split. lra.
  - rewrite S_INR in Hhi. pose proof (pos_INR n) as Hn.
    destruct IH as (Hy & Hp & Hz); [lra |].
    rewrite Nat.iter_succ.
    set (r1 := Nat.iter n (handleInput key_down (keyPress "ArrowRight")) r)
      in *.
    assert (Hkb1 : enableKeyboard (config r1) = true).
    { rewrite <- Hkb. f_equal. apply repeated_config. }
    destruct (arrow_right_state r1 Hkb1) as [Hs _].
    cbn [getState yaw pitch zoom] in *.
    rewrite Hs. cbn [set_yaw yaw pitch zoom].
    rewrite Hy, Hp, Hz. rewrite normalize_degrees_id by lra.
    rewrite S_INR. repeat split. lra.
Qed.

Lemma arrow_right_presses_add_up_witness :
  yaw (getState (repeated 5 key_down (keyPress "ArrowRight") freshRenderer))
  = 25.
Proof.
  destruct (arrow_right_presses_add_up 5 freshRenderer) as (Hy & _).
  - reflexivity.
  - cbn. lra.
  - cbn. lra.
  - rewrite Hy. cbn. lra.
Defined.

(** X12.  Events the renderer ignores leave it exactly as it was, not even
    marked dirty: a key-down with the keyboard disabled or with a key
    other than the four arrows; a mouse-move while not dragging or without
    both movement components; a wheel event without [deltaY]; a
    mouse-down without both coordinates; a touch-start or touch-move
    without a touch, and a touch-move without a drag anchor. *)
Theorem ignored_events_change_nothing (r : Renderer) :
  (enableKeyboard (config r) = false ->
   forall data, handleInput key_down data r = r)
  /\ (forall key,
        key <> "ArrowLeft"%string -> key <> "ArrowRight"%string ->
        key <> "ArrowUp"%string -> key <> "ArrowDown"%string ->
        handleInput key_down (keyPress key) r = r)
  /\ (isDragging (state r) = false ->
      forall data, handleInput mouse_move data r = r)
  /\ (forall data, data_dx data = None \/ data_dy data = None ->
        handleInput mouse_move data r = r)
  /\ (forall data, data_deltaY data = None -> handleInput wheel data r = r)
  /\ (forall data, data_x data = None \/ data_y data = None ->
        handleInput mouse_down data r = r)
  /\ (forall data,
        data_touches data = None \/ data_touches data = Some [] ->
        handleInput touch_start data r = r
        /\ handleInput touch_move data r = r)
  /\ (dragStart r = None ->
      forall data, handleInput touch_move data r = r).
Proof.
  repeat split.
  - intros Hkb data. cbn. unfold handleKeyDown. rewrite Hkb. reflexivity.
  - intros key H1 H2 H3 H4. cbn [handleInput].
    unfold handleKeyDown, keyPress.
    cbn [data_key default from_option]. unfold Datatypes.id.
    apply String.eqb_neq in H1, H2, H3, H4. rewrite H1, H2, H3, H4.
    destruct (enableKeyboard (config r)); reflexivity.
  - intros Hd data. cbn. unfold handleMouseMove. rewrite Hd. reflexivity.
  - intros data Hnone. cbn. unfold handleMouseMove.
    destruct (isDragging (state r)); [| reflexivity]. cbn [negb].
    destruct Hnone as [-> | ->]; [reflexivity |].
    destruct (data_dx data); reflexivity.
  - intros data Hnone. cbn. unfold handleWheel. rewrite Hnone. reflexivity.
  - intros data Hnone. cbn. unfold handleMouseDown.
    destruct Hnone as [-> | ->]; [reflexivity |].
    destruct (data_x data); reflexivity.
  - cbn. unfold handleTouchStart. destruct H as [-> | ->]; reflexivity.
  - cbn. unfold handleTouchMove. destruct H as [-> | ->]; reflexivity.
  - intros Hanchor data. cbn. unfold handleTouchMove. rewrite Hanchor.
    destruct (data_touches data) as [[| t ts] |]; reflexivity.
Qed.

Lemma ignored_events_change_nothing_witness :
  handleInput key_down (keyPress "Enter") freshRenderer = freshRenderer
  /\ handleInput mouse_move (movement 30 40) freshRenderer = freshRenderer.
Proof.
  destruct (ignored_events_change_nothing freshRenderer)
    as (_ & Hkey & Hmove & _).
  split.
  - apply Hkey; discriminate.
  - apply Hmove. reflexivity.
Defined.

(** X13.  A drag lasts from a mouse-down or touch-start to the next
    mouse-up, mouse-leave or touch-end.  The start records the anchor and
    sets [isDragging] without moving the camera or marking the frame
    dirty; the end clears both, and a mouse-move after it is ignored.  A
    touch-move moves the camera as a mouse-move by the offset from the
    anchor does, and makes the touch the new anchor. *)
Theorem drag_lifecycle (r : Renderer) (x y : R) :
  let started := handleInput mouse_down (pointerAt x y) r in
  (handleInput touch_start (touchAt x y) r = started
   /\ isDragging (state started) = true
   /\ dragStart started = Some (x, y)
   /\ yaw (state started) = yaw (state r)
   /\ pitch (state started) = pitch (state r)
   /\ zoom (state started) = zoom (state r)
   /\ isDirty started = isDirty r
   /\ animationFrameId started = animationFrameId r)
  /\ (forall type data data',
        type = mouse_up \/ type = mouse_leave \/ type = touch_end ->
        let ended := handleInput type data r in
        isDragging (state ended) = false
        /\ dragStart ended = None
        /\ yaw (state ended) = yaw (state r)
        /\ pitch (state ended) = pitch (state r)
        /\ handleInput mouse_move data' ended = ended)
  /\ (forall sx sy,
        dragStart r = Some (sx, sy) ->
        let moved := handleInput touch_move (touchAt x y) r in
        state moved
        = state (handleInput mouse_move (movement (x - sx) (y - sy)) r)
        /\ dragStart moved = Some (x, y)).
Proof.
  split; [| split].
  - cbn. unfold handleTouchStart, handleMouseDown, touchAt, pointerAt. cbn.
    repeat split.
  - intros type data data' Htype ended.
    assert (Hended : ended = handleMouseUp r).
    { subst ended. destruct Htype as [-> | [-> | ->]]; reflexivity. }
    rewrite Hended. unfold handleMouseUp. cbn.
    repeat split.
  - intros sx sy Hanchor moved. subst moved. cbn [handleInput].
    unfold handleTouchMove, touchAt. cbn [data_touches]. rewrite Hanchor.
    cbn. split; reflexivity.
Qed.

Lemma drag_lifecycle_witness :
  handleInput mouse_move (movement 30 40)
    (handleInput mouse_up noData
       (handleInput mouse_down (pointerAt 5 5) freshRenderer))
  = handleInput mouse_up noData
      (handleInput mouse_down (pointerAt 5 5) freshRenderer).
Proof.
  destruct (drag_lifecycle
              (handleInput mouse_down (pointerAt 5 5) freshRenderer) 0 0)
    as (_ & Hend & _).
  destruct (Hend mouse_up noData (movement 30 40)) as (_ & _ & _ & _ & H);
    [left; reflexivity |].
  exact H.
Defined.

(** ** Scheduling and rendering *)

(** X14.  Marking the frame dirty schedules at most one animation frame:
    with a frame already pending it only sets the dirty flag; otherwise it
    takes the next handle.  Marking twice is marking once.  When the frame
    fires and the render does not throw, no frame is pending any more and
    [onViewChange] is called last, with the camera state. *)
Theorem one_animation_frame_pending (r : Renderer) :
  (isDirty (markDirty r) = true
   /\ animationFrameId (markDirty r) <> None
   /\ markDirty (markDirty r) = markDirty r)
  /\ (forall handle, animationFrameId r = Some handle ->
        markDirty r = set_isDirty true r)
  /\ (animationFrameId r = None ->
      animationFrameId (markDirty r) = Some (nextFrameHandle r)
      /\ nextFrameHandle (markDirty r) = S (nextFrameHandle r))
  /\ (fst (animationFrame r) = inr tt ->
      animationFrameId (snd (animationFrame r)) = None
      /\ called (snd (animationFrame r))
         = called (snd (render r)) ++ [OnViewChange (state r)]).
Proof.
  split; [| split; [| split]].
  - unfold markDirty, scheduleRender. cbn.
    destruct (animationFrameId r) eqn:E; cbn; rewrite ?E; cbn;
      repeat split; discriminate.
  - intros handle H. unfold markDirty, scheduleRender. cbn. rewrite H.
    reflexivity.
  - intros H. unfold markDirty, scheduleRender. cbn. rewrite H. cbn.
    split; reflexivity.
  - rewrite animationFrame_run.
    destruct (render_effect r) as (Hst & _).
    destruct (render r) as [[e | []] r1]; cbn [fst snd] in *;
      [discriminate |].
    intros _. cbn. rewrite Hst. split; reflexivity.
Qed.

Lemma one_animation_frame_pending_witness :
  markDirty (markDirty freshRenderer) = set_isDirty true
                                          (markDirty freshRenderer).
Proof.
  destruct (one_animation_frame_pending (markDirty freshRenderer))
    as (_ & Hpending & _).
  apply (Hpending 1%nat). reflexivity.
Defined.



Lemma source_markDirty (r : Renderer) :
  sourceData (markDirty r) = sourceData r
  /\ sourceCanvas (markDirty r) = sourceCanvas r
  /\ image (markDirty r) = image r.
Proof.
  unfold markDirty, scheduleRender. cbn.
  destruct (animationFrameId r); repeat split; reflexivity.
Qed.

Lemma handleInput_source (type : InputType) (data : InputData)
  (r : Renderer) :
  sourceData (handleInput type data r) = sourceData r
  /\ sourceCanvas (handleInput type data r) = sourceCanvas r
  /\ image (handleInput type data r) = image r.
Proof.
  destruct data as [dx0 dy0 ddx ddy dY key touches].
  destruct type; open_handlers; cbn; split_cases; cbn;
    repeat match goal with
           | |- context [markDirty ?x] =>
               destruct (source_markDirty x) as (-> & -> & ->)
           end;
    cbn; repeat split; reflexivity.
Qed.

Lemma render_keeps_cached (r : Renderer) :
  sourceCanvas r <> None ->
  sourceData (snd (render r)) = sourceData r
  /\ sourceCanvas (snd (render r)) = sourceCanvas r.
Proof.
  intros H. run_method; split; congruence.
Qed.

(** The first accepted image on a renderer without a source canvas. *)
Lemma first_load (src : string) (img : HTMLImage) (r : Renderer) :
  ~ tooSmall img -> ~ tooLarge img ->
  sourceCanvas r = None -> offscreenContext r = true ->
  let r' := snd (loadImage src (Decoded img) r) in
  fst (loadImage src (Decoded img) r) = inr tt
  /\ image r' = Some img
  /\ sourceData r' = Some (image_pixels img)
  /\ sourceCanvas r' = Some (image_width img, image_height img)
  /\ isDirty r' = false
  /\ called r' = called r ++ [OnLoad].
Proof.
  intros Hs Hl Hc Ho. cbv zeta.
  rewrite loadImage_accepted by assumption.
  unfold render, ensureSource, bind, gets, modify, ret, throw. cbn.
  rewrite Hc. cbn. rewrite Ho. cbn.
  destruct (labelRenderer r); cbn; repeat split; reflexivity.
Qed.

Lemma perform_keeps_cached (op : Operation) (r : Renderer) :
  sourceCanvas r <> None ->
  sourceData (perform op r) = sourceData r
  /\ sourceCanvas (perform op r) = sourceCanvas r.
Proof.
  intros Hc.
  destruct op as [type data | partialState | labels | width height
                  | src outcome |]; cbn [perform].
  - destruct (handleInput_source type data r) as (-> & -> & _).
    split; reflexivity.
  - unfold setState.
    match goal with
    | |- context [markDirty ?x] =>
        destruct (source_markDirty x) as (-> & -> & _)
    end.
    destruct partialState as [[y |] [p |] [z |]]; cbn; split; reflexivity.
  - unfold setLabels. destruct (labelRenderer r); [| split; reflexivity].
    match goal with
    | |- context [markDirty ?x] =>
        destruct (source_markDirty x) as (-> & -> & _)
    end.
    split; reflexivity.
  - destruct (resize_outcome width height r) as [Hbad Hgood].
    destruct (Z_lt_dec width 100) as [Hw | Hw];
      [rewrite Hbad by (left; exact Hw); split; reflexivity |].
    destruct (Z_lt_dec height 100) as [Hh | Hh];
      [rewrite Hbad by (right; exact Hh); split; reflexivity |].
    rewrite Hgood by lia. cbn [snd].
    match goal with
    | |- context [markDirty ?x] =>
        destruct (source_markDirty x) as (-> & -> & _)
    end.
    split; reflexivity.
  - destruct outcome as [img | url];
      [| destruct (loadImage_failed_cases src url r) as (e & [H | H]);
         rewrite H; split; reflexivity].
    destruct (tooSmall_dec img) as [Hs | Hs];
      [rewrite loadImage_too_small by exact Hs; split; reflexivity |].
    destruct (tooLarge_dec img) as [Hl | Hl];
      [rewrite loadImage_too_large by assumption; split; reflexivity |].
    rewrite loadImage_accepted by assumption. rewrite accepted_run.
    cbv zeta. set (r1 := set_isDirty true (set_image (Some img) r)).
    destruct (render_keeps_cached r1 Hc) as [Hd Hcv].
    destruct (render r1) as [[e | []] r2]; cbn [fst snd] in *;
      split; assumption.
  - destruct (animationFrameId r); [| split; reflexivity].
    rewrite animationFrame_run.
    destruct (render_keeps_cached r Hc) as [Hd Hcv].
    destruct (render r) as [[e | []] r2]; cbn [fst snd] in *;
      split; assumption.
Qed.

(** X16.  Once a renderer has a source canvas, the bytes cached with it
    are the ones every later frame samples: no sequence of calls replaces
    them.  In particular, loading another accepted image changes the
    active image, and with it the dimensions used for sampling, but not
    the cached bytes. *)
Theorem cached_source_is_kept (r : Renderer) (ops : list Operation) :
  sourceCanvas r <> None ->
  sourceData (performAll ops r) = sourceData r
  /\ sourceCanvas (performAll ops r) = sourceCanvas r
  /\ (forall src img,
        ~ tooSmall img -> ~ tooLarge img ->
        let r' := snd (loadImage src (Decoded img) (performAll ops r)) in
        image r' = Some img /\ sourceData r' = sourceData r).
Proof.
  intros Hc.
  assert (Hkeep : forall l r0, sourceCanvas r0 <> None ->
            sourceData (performAll l r0) = sourceData r0
            /\ sourceCanvas (performAll l r0) = sourceCanvas r0).
  { unfold performAll. induction l as [| op l IH]; intros r0 H0;
      cbn [fold_left]; [split; reflexivity |].
    destruct (perform_keeps_cached op r0 H0) as [Hd Hcv].
    destruct (IH (perform op r0)) as [-> ->]; [congruence |].
    split; assumption. }
  destruct (Hkeep ops r Hc) as [Hd Hcv].
  split; [exact Hd |]. split; [exact Hcv |].
  intros src img Hs Hl r'. subst r'.
  set (r1 := performAll ops r) in *.
  assert (Hc1 : sourceCanvas r1 <> None) by congruence.
  split.
  - rewrite loadImage_accepted by assumption. rewrite accepted_run.
    cbv zeta. set (r2 := set_isDirty true (set_image (Some img) r1)).
    destruct (render_frame r2) as (_ & _ & Hi & _).
    destruct (render r2) as [[e | []] r3]; cbn [fst snd] in *; exact Hi.
  - destruct (perform_keeps_cached (OpLoadImage src (Decoded img)) r1 Hc1)
      as [Hd1 _].
    cbn [perform] in Hd1. rewrite Hd1. exact Hd.
Qed.

Lemma performAll_nil (r : Renderer) : performAll [] r = r.
Proof. reflexivity. Qed.

Lemma cached_source_is_kept_witness :
  let first := blankImage 512 256 in
  let second := mkImage 1024 512 (replicate (Z.to_nat (1024 * 512 * 4)) 9%Z) in
  let r1 := snd (loadImage "a.jpg" (Decoded first) freshRenderer) in
  let r2 := snd (loadImage "b.jpg" (Decoded second) r1) in
  image r2 = Some second /\ sourceData r2 = Some (image_pixels first).
Proof.
  intros first second r1 r2.
  assert (Hf : ~ tooSmall first /\ ~ tooLarge first).
  { unfold tooSmall, tooLarge, first, blankImage.
    cbn [image_width image_height]. lia. }
  assert (Hs : ~ tooSmall second /\ ~ tooLarge second).
  { unfold tooSmall, tooLarge, second.
    cbn [image_width image_height]. lia. }
  destruct (first_load "a.jpg" first freshRenderer
              (proj1 Hf) (proj2 Hf) eq_refl eq_refl)
    as (_ & _ & Hdata & Hcanvas & _).
  fold r1 in Hdata, Hcanvas.
  assert (Hc1 : sourceCanvas r1 <> None) by (rewrite Hcanvas; discriminate).
  destruct (cached_source_is_kept r1 [] Hc1) as (_ & _ & Hload).
  rewrite performAll_nil in Hload.
  destruct (Hload "b.jpg"%string second (proj1 Hs) (proj2 Hs)) as [Hi Hd].
  fold r2 in Hi, Hd.
  split; [exact Hi |]. rewrite Hd. exact Hdata.
Defined.

(** X17.  [resize] succeeds exactly when both dimensions are at least
    100.  It then sets the canvas to that size, marks the frame dirty with
    an animation frame pending, and leaves the camera state, the active
    image and the cached source bytes as they were. *)
Theorem resize_accepts_from_100 (width height : Z) (r : Renderer) :
  (fst (resize width height r) = inr tt
   <-> (100 <= width)%Z /\ (100 <= height)%Z)
  /\ ((100 <= width)%Z -> (100 <= height)%Z ->
      let r' := snd (resize width height r) in
      Z.of_nat (canvas_width r') = width
      /\ Z.of_nat (canvas_height r') = height
      /\ isDirty r' = true
      /\ animationFrameId r' <> None
      /\ state r' = state r
      /\ image r' = image r
      /\ sourceData r' = sourceData r).
Proof.
  destruct (resize_outcome width height r) as [Hbad Hgood].
  split.
  - split.
    + intros Hok.
      destruct (Z_lt_dec width 100) as [Hw | Hw];
        [rewrite Hbad in Hok by (left; exact Hw); discriminate |].
      destruct (Z_lt_dec height 100) as [Hh | Hh];
        [rewrite Hbad in Hok by (right; exact Hh); discriminate |].
      lia.
    + intros [Hw Hh]. rewrite Hgood by assumption. reflexivity.
  - intros Hw Hh. cbv zeta. rewrite Hgood by assumption. cbn [snd].
    set (r1 := set_canvas_height (Z.to_nat height)
                 (set_canvas_width (Z.to_nat width) r)).
    destruct (source_markDirty r1) as (Hd & _ & Hi).
    rewrite state_markDirty, Hd, Hi.
    unfold markDirty, scheduleRender. cbn.
    destruct (animationFrameId r) eqn:E; cbn; rewrite ?E; cbn;
      rewrite !Z2Nat.id by lia; repeat split; discriminate.
Qed.

Lemma resize_accepts_from_100_witness :
  fst (resize 100 100 freshRenderer) = inr tt
  /\ isDirty (snd (resize 100 100 freshRenderer)) = true.
Proof.
  destruct (resize_accepts_from_100 100 100 freshRenderer) as [Hiff Hset].
  split.
  - apply Hiff. lia.
  - destruct Hset as (_ & _ & Hd & _); [lia | lia | exact Hd].
Defined.

(** X18.  The canvas size the application measures from its container is
    at least 100 in both dimensions, whatever the container's size, so
    that [resize] never rejects it. *)
Theorem measured_size_is_accepted (rectWidth rectHeight : R)
  (r : Renderer) :
  let size := updateDimensions rectWidth rectHeight in
  (100 <= fst size)%Z /\ (100 <= snd size)%Z
  /\ fst (resize (fst size) (snd size) r) = inr tt
  /\ (100 <= rectWidth -> IZR (fst size) <= rectWidth < IZR (fst size) + 1)
  /\ (100 <= rectHeight ->
      IZR (snd size) <= rectHeight < IZR (snd size) + 1).
Proof.
  cbv zeta. unfold updateDimensions. cbn [fst snd].
  assert (Hfloor : forall v, 100 <= v ->
            Z.max (Math.floor v) 100 = Math.floor v).
  { intros v Hv. pose proof (floor_bounds v) as [_ Hup].
    apply Z.max_l. apply Z.lt_succ_r. apply lt_IZR.
    rewrite succ_IZR. lra. }
  split; [lia |]. split; [lia |]. split.
  - destruct (resize_outcome (Z.max (Math.floor rectWidth) 100)
                (Z.max (Math.floor rectHeight) 100) r) as [_ Hgood].
    rewrite Hgood by lia. reflexivity.
  - split; intros Hv; rewrite Hfloor by exact Hv; apply floor_bounds.
Qed.

Lemma measured_size_is_accepted_witness :
  IZR (fst (updateDimensions 640.5 20)) <= 640.5.
Proof.
  destruct (measured_size_is_accepted 640.5 20 freshRenderer)
    as (_ & _ & _ & Hw & _).
  apply Hw. lra.
Defined.

(** ** The label overlay as a whole *)

Lemma renderLabel_boxes
  (viewportWidth viewportHeight imageWidth imageHeight
   yaw0 pitch0 zoom0 fov : R) (type : ProjectionType)
  (label : PanoramaLabel) :
  let cmds := LabelRenderer.renderLabel viewportWidth viewportHeight
                imageWidth imageHeight yaw0 pitch0 zoom0 fov type label in
  let box := labelBox viewportWidth viewportHeight imageWidth imageHeight
               yaw0 pitch0 zoom0 fov type label in
  filledRects cmds = option_list box
  /\ strokedRects cmds = option_list box
  /\ (2 * length (option_list box) <= length cmds)%nat
  /\ (length cmds <= 3 * length (option_list box))%nat.
Proof.
  cbv zeta.
  unfold LabelRenderer.renderLabel, LabelRenderer.drawLabel, labelBox.
  destruct (LabelRenderer.visibleCorners _) as [| c0 cs].
  - cbn. repeat split; lia.
  - destruct (truthy _ && gtb _ _ && gtb _ _); cbn;
      repeat split; lia.
Qed.

(** X19.  The overlay fills one rectangle and strokes one rectangle for
    each label that has a corner in view, and none for the others: the
    rectangles filled are, in the order of the label list, the bounding
    boxes of the visible corners of those labels, and the rectangles
    stroked are the same ones.  Besides these two commands per drawn
    label there is at most one more, its title; a label gets no
    rectangle exactly when none of its four corners projects into view,
    and when that holds of every label nothing is drawn. *)
Theorem one_box_per_visible_label (labels : list PanoramaLabel)
  (viewportWidth viewportHeight imageWidth imageHeight
   yaw0 pitch0 zoom0 fov : R) (type : ProjectionType) :
  let overlay :=
    LabelRenderer.render labels viewportWidth viewportHeight
      imageWidth imageHeight yaw0 pitch0 zoom0 fov type in
  let box := labelBox viewportWidth viewportHeight imageWidth imageHeight
               yaw0 pitch0 zoom0 fov type in
  filledRects overlay = omap box labels
  /\ strokedRects overlay = omap box labels
  /\ (2 * length (omap box labels) <= length overlay)%nat
  /\ (length overlay <= 3 * length (omap box labels))%nat
  /\ (forall label,
        box label = None
        <-> Forall (fun c => c = None)
              (LabelRenderer.projectedCorners viewportWidth viewportHeight
                 imageWidth imageHeight yaw0 pitch0 zoom0 fov type label))
  /\ (Forall (fun label => box label = None) labels -> overlay = []).
Proof.
  cbv zeta. unfold LabelRenderer.render.
  set (box := labelBox viewportWidth viewportHeight imageWidth imageHeight
                yaw0 pitch0 zoom0 fov type).
  set (one := LabelRenderer.renderLabel viewportWidth viewportHeight
                imageWidth imageHeight yaw0 pitch0 zoom0 fov type).
  assert (Hone : forall label,
            filledRects (one label) = option_list (box label)
            /\ strokedRects (one label) = option_list (box label)
            /\ (2 * length (option_list (box label))
                <= length (one label))%nat
            /\ (length (one label)
                <= 3 * length (option_list (box label)))%nat)
    by (intros label; apply renderLabel_boxes).
  assert (Hcons : forall label rest,
            omap box (label :: rest)
            = option_list (box label) ++ omap box rest)
    by (intros label rest; cbn; destruct (box label); reflexivity).
  assert (Hall : filledRects (flat_map one labels) = omap box labels
                 /\ strokedRects (flat_map one labels) = omap box labels
                 /\ (2 * length (omap box labels)
                     <= length (flat_map one labels))%nat
                 /\ (length (flat_map one labels)
                     <= 3 * length (omap box labels))%nat).
  { induction labels as [| label rest IH]; [cbn; repeat split; lia |].
    destruct IH as (IHf & IHs & IHlo & IHhi).
    destruct (Hone label) as (Hf & Hs & Hlo & Hhi).
    rewrite Hcons. cbn [flat_map].
    unfold filledRects, strokedRects in *.
    rewrite !omap_app, !length_app, Hf, Hs, IHf, IHs.
    repeat split; lia. }
  destruct Hall as (Hf & Hs & Hlo & Hhi).
  split; [exact Hf |]. split; [exact Hs |].
  split; [exact Hlo |]. split; [exact Hhi |]. split.
  - intros label. rewrite <- visibleCorners_nil. unfold box, labelBox.
    destruct (LabelRenderer.visibleCorners _); split;
      (reflexivity || discriminate).
  - intros Hnone.
    assert (Hempty : forall l,
              Forall (fun label => box label = None) l -> omap box l = []).
    { intros l Hl. induction Hl as [| label rest Hlabel _ IH];
        [reflexivity |].
      rewrite Hcons, Hlabel, IH. reflexivity. }
    rewrite (Hempty labels Hnone) in Hhi. cbn in Hhi.
    destruct (flat_map one labels); [reflexivity | cbn in Hhi; lia].
Qed.





(** ** The frame as a whole *)

Lemma readByte_is_byte (data : list Z) (index : Z) :
  Forall (fun b => (0 <= b <= 255)%Z) data ->
  (0 <= readByte data index <= 255)%Z.
Proof.
  intros Hall. unfold readByte.
  destruct (Z.ltb_spec index 0); [lia |].
  destruct (data !! Z.to_nat index) as [b |] eqn:E; cbn; [| lia].
  rewrite Forall_lookup in Hall. apply (Hall _ _ E).
Qed.

(** X21.  The pixel loops fill the whole destination buffer: it has
    [width * height * 4] bytes, every fourth of them (the alpha of each
    pixel) is 255, and every byte is within [[0, 255]] when the source
    bytes are. *)
Theorem rasterize_fills_buffer (source : list Z) (width height : nat)
  (imageWidth imageHeight : Z) (yaw0 pitch0 zoom0 fov : R)
  (type : ProjectionType) :
  let dest := rasterize source width height imageWidth imageHeight
                yaw0 pitch0 zoom0 fov type in
  length dest = (width * height * 4)%nat
  /\ (forall i, (i < width * height)%nat ->
        dest !! (i * 4 + 3)%nat = Some 255%Z)
  /\ (Forall (fun b => (0 <= b <= 255)%Z) source ->
      Forall (fun b => (0 <= b <= 255)%Z) dest).
Proof.
  intros dest.
  assert (Hlen : length dest = (width * height * 4)%nat).
  { unfold dest, rasterize.
    destruct (rasterize_prefix source width height imageWidth imageHeight
                yaw0 pitch0 zoom0 fov type height
                (replicate (width * height * 4) 0%Z)) as (Hl & _);
      [lia | apply length_replicate |].
    cbv zeta in Hl. rewrite length_replicate in Hl. exact Hl. }
  assert (Hat : forall i c, (i < width * height)%nat -> (c < 4)%nat ->
            exists y x, (y < height)%nat /\ (x < width)%nat
                        /\ (i * 4 + c = (y * width + x) * 4 + c)%nat).
  { intros i c Hi Hc.
    assert (Hw : (0 < width)%nat) by nia.
    exists (i / width)%nat, (i mod width)%nat.
    pose proof (Nat.div_mod_eq i width) as Hdm.
    pose proof (Nat.mod_upper_bound i width ltac:(lia)) as Hm.
    split; [apply Nat.Div0.div_lt_upper_bound; nia |].
    split; [exact Hm | nia]. }
  split; [exact Hlen |]. split.
  - intros i Hi. destruct (Hat i 3%nat Hi ltac:(lia)) as (y & x & Hy & Hx & ->).
    unfold dest. rewrite rasterize_writes by (assumption || lia).
    reflexivity.
  - intros Hsrc. apply Forall_lookup. intros j b Hj.
    assert (Hjlen : (j < width * height * 4)%nat).
    { rewrite <- Hlen. apply lookup_lt_is_Some. eauto. }
    pose proof (Nat.div_mod_eq j 4) as Hdm.
    pose proof (Nat.mod_upper_bound j 4 ltac:(lia)) as Hm.
    assert (Hi : (j / 4 < width * height)%nat)
      by (apply Nat.Div0.div_lt_upper_bound; lia).
    destruct (Hat (j / 4)%nat (j mod 4)%nat Hi Hm) as (y & x & Hy & Hx & He).
    assert (Hje : j = ((y * width + x) * 4 + j mod 4)%nat) by lia.
    rewrite Hje in Hj. unfold dest in Hj.
    rewrite rasterize_writes in Hj by assumption.
    cbv zeta in Hj. unfold writtenBytes in Hj.
    destruct (j mod 4)%nat as [| [| [| [| k]]]]; cbn [lookup] in Hj;
      try (injection Hj as <-; first [apply readByte_is_byte; exact Hsrc
                                     | lia]).
    lia.
Qed.

Lemma rasterize_fills_buffer_witness :
  Forall (fun b => (0 <= b <= 255)%Z)
    (rasterize [10; 20; 30; 40]%Z 2 1 1 1 0 0 1 (PI / 2) EQUIDISTANT).
Proof.
  destruct (rasterize_fills_buffer [10; 20; 30; 40]%Z 2 1 1 1 0 0 1
              (PI / 2) EQUIDISTANT) as (_ & _ & H).
  apply H. repeat constructor; lia.
Defined.




Lemma labels_markDirty (r : Renderer) :
  labelRenderer (markDirty r) = labelRenderer r.
Proof.
  unfold markDirty, scheduleRender. cbn.
  destruct (animationFrameId r); reflexivity.
Qed.

Lemma handleInput_labels (type : InputType) (data : InputData)
  (r : Renderer) :
  labelRenderer (handleInput type data r) = labelRenderer r.
Proof.
  destruct data as [dx0 dy0 ddx ddy dY key touches].
  destruct type; open_handlers; cbn; split_cases; cbn;
    rewrite ?labels_markDirty; reflexivity.
Qed.

Lemma accepted_spec (img : HTMLImage) :
  accepted img = true <-> ~ tooSmall img /\ ~ tooLarge img.
Proof.
  unfold accepted, tooSmall, tooLarge.
  rewrite !andb_true_iff, !Z.leb_le. lia.
Qed.

Lemma perform_labels_image (op : Operation) (r : Renderer)
  (labels : list PanoramaLabel) :
  labelRenderer r = Some labels ->
  labelRenderer (perform op r) = Some (lastLabels [op] labels)
  /\ image (perform op r) = lastAccepted [op] (image r).
Proof.
  intros Hlab. unfold lastLabels, lastAccepted. cbn [fold_left].
  destruct op as [type data | partialState | newLabels | width height
                  | src outcome |]; cbn [perform].
  - rewrite handleInput_labels.
    destruct (handleInput_source type data r) as (_ & _ & ->). auto.
  - unfold setState. rewrite labels_markDirty.
    match goal with
    | |- context [image (markDirty ?x)] =>
        destruct (source_markDirty x) as (_ & _ & ->)
    end.
    destruct partialState as [[y |] [p |] [z |]]; cbn; auto.
  - unfold setLabels. rewrite Hlab. rewrite labels_markDirty.
    match goal with
    | |- context [image (markDirty ?x)] =>
        destruct (source_markDirty x) as (_ & _ & ->)
    end.
    cbn. auto.
  - destruct (resize_outcome width height r) as [Hbad Hgood].
    destruct (Z_lt_dec width 100) as [Hw | Hw];
      [rewrite Hbad by (left; exact Hw); auto |].
    destruct (Z_lt_dec height 100) as [Hh | Hh];
      [rewrite Hbad by (right; exact Hh); auto |].
    rewrite Hgood by lia. cbn [snd]. rewrite labels_markDirty.
    match goal with
    | |- context [image (markDirty ?x)] =>
        destruct (source_markDirty x) as (_ & _ & ->)
    end.
    cbn. auto.
  - destruct outcome as [img | url];
      [| destruct (loadImage_failed_cases src url r) as (e & [H | H]);
         rewrite H; cbn; auto].
    pose proof (accepted_spec img) as Hacc.
    destruct (tooSmall_dec img) as [Hs | Hs].
    { rewrite loadImage_too_small by exact Hs.
      destruct (accepted img); [tauto | auto]. }
    destruct (tooLarge_dec img) as [Hl | Hl].
    { rewrite loadImage_too_large by assumption.
      destruct (accepted img); [tauto | auto]. }
    assert (Ha : accepted img = true) by tauto. rewrite Ha.
    rewrite loadImage_accepted by assumption. rewrite accepted_run.
    cbv zeta. set (r1 := set_isDirty true (set_image (Some img) r)).
    destruct (render_frame r1) as (_ & _ & Hi & Hlr & _).
    destruct (render r1) as [[e | []] r2]; cbn [fst snd] in *;
      cbn [call set_called labelRenderer image];
      rewrite ?Hi, ?Hlr; auto.
  - destruct (animationFrameId r); [| auto].
    rewrite animationFrame_run.
    destruct (render_frame r) as (_ & _ & Hi & Hlr & _).
    destruct (render r) as [[e | []] r2]; cbn [fst snd] in *;
      cbn [call set_called set_animationFrameId labelRenderer image];
      rewrite ?Hi, ?Hlr; auto.
Qed.

(** X23.  Through any sequence of calls on a constructed renderer, the
    label list in force is the one given to the last [setLabels] (the
    empty list before any), and the active image is the last one of
    accepted dimensions that a load delivered (none before any): loads
    that fail or deliver rejected dimensions, and all other calls, leave
    both as they were. *)
Theorem latest_labels_and_image (canvasWidth canvasHeight : nat)
  (cfg : RendererConfig) (offscreen : bool) (ops : list Operation) :
  let r := performAll ops
             (construct canvasWidth canvasHeight cfg offscreen) in
  labelRenderer r = Some (lastLabels ops [])
  /\ image r = lastAccepted ops None.
Proof.
  cbv zeta.
  set (r0 := construct canvasWidth canvasHeight cfg offscreen).
  assert (H0 : labelRenderer r0 = Some [] /\ image r0 = None)
    by (split; reflexivity).
  assert (Hgen : forall l r1 labels current,
            labelRenderer r1 = Some labels -> image r1 = current ->
            labelRenderer (performAll l r1) = Some (lastLabels l labels)
            /\ image (performAll l r1) = lastAccepted l current).
  { unfold performAll, lastLabels, lastAccepted.
    induction l as [| op l IH]; intros r1 labels current Hl Hi;
      cbn [fold_left]; [auto |].
    destruct (perform_labels_image op r1 labels Hl) as [Hl' Hi'].
    unfold lastLabels, lastAccepted in Hl', Hi'. cbn [fold_left] in Hl', Hi'.
    rewrite Hi in Hi'. apply IH; assumption. }
  destruct H0 as [Hl Hi]. apply Hgen; assumption.
Qed.

(** ** URL parameters *)

(** X24.  [parseNumberParam] returns the default, as it is, when the
    parameter is missing, empty or not a number.  A parsed number is
    clamped: with both bounds in order the result is the number clamped
    into them; with the bounds in the wrong order it is the upper bound
    [max]; with one bound only that bound applies; with none the number
    is returned. *)
Theorem parseNumberParam_result (parseFloat : string -> option R)
  (param : option string) (defaultValue : R) (min max : option R) :
  let result := parseNumberParam parseFloat param defaultValue min max in
  (param = None \/ param = Some EmptyString
   \/ (exists text, param = Some text /\ parseFloat text = None) ->
   result = defaultValue)
  /\ (forall text num,
        param = Some text -> text <> EmptyString ->
        parseFloat text = Some num ->
        (forall lo hi, min = Some lo -> max = Some hi ->
           (lo <= hi -> result = clamp num lo hi /\ lo <= result <= hi)
           /\ (hi < lo -> result = hi))
        /\ (forall lo, min = Some lo -> max = None -> result = Rmax lo num)
        /\ (forall hi, min = None -> max = Some hi -> result = Rmin hi num)
        /\ (min = None -> max = None -> result = num)).
Proof.
  intros result. split.
  - intros [-> | [-> | (text & -> & Hnan)]]; try reflexivity.
    subst result. unfold parseNumberParam. rewrite Hnan.
    destruct text; reflexivity.
  - intros text num -> Hne Hnum. subst result. unfold parseNumberParam.
    rewrite Hnum. destruct text as [| ch rest]; [contradiction |].
    repeat split; intros; subst;
      unfold ltb, gtb, ltb, clamp, Math.max, Math.min, Rmax, Rmin;
      repeat destruct Rlt_dec; repeat destruct Rle_dec; lra.
Qed.

Lemma parseNumberParam_result_witness :
  let parseFloat := fun text : string =>
    if String.eqb text "200" then Some 200 else None in
  parseNumberParam parseFloat (Some "200"%string) 0 (Some (-180)) (Some 180)
  = clamp 200 (-180) 180.
Proof.
  intros parseFloat.
  destruct (parseNumberParam_result parseFloat (Some "200"%string) 0
              (Some (-180)) (Some 180)) as [_ H].
  destruct (H "200"%string 200 eq_refl ltac:(discriminate) eq_refl)
    as (Hboth & _).
  destruct (Hboth (-180) 180 eq_refl eq_refl) as [Hord _].
  destruct Hord as [Hres _]; [lra |]. exact Hres.
Defined.
